(** * copy-to-gdrive: mirroring a local directory tree into a remote drive

    A shallow embedding of [src/copy-to-gdrive.py]: the two adapters
    [create_folder] and [upload_file], and the driver [upload_directory]
    with the parts of [os] and [os.path] it calls ([os.walk],
    [os.path.relpath], [os.path.join], [os.path.basename], [str.split]).

    Python effects are modelled by a small monad [py] that threads the state
    of the remote store, accumulates an observable trace (lines printed and
    calls to the two adapters) and carries exceptions, which keep the state
    and the trace produced before they were raised. *)

From Stdlib Require Import List String Ascii Bool Arith Lia Permutation.
Import ListNotations.
Local Open Scope string_scope.
Local Open Scope list_scope.

Set Implicit Arguments.

(** ** Strings and paths *)

(** [os.sep], [os.curdir] and [os.pardir] on POSIX. *)
Definition sep : ascii := "/"%char.
Definition curdir : string := ".".
Definition pardir : string := "..".

(** [s.split(c)] for a one-character separator: the fields between the
    occurrences of [c]; never the empty list. *)
Fixpoint split (c : ascii) (s : string) : list string :=
  match s with
  | EmptyString => [EmptyString]
  | String a s' =>
      if Ascii.eqb a c then EmptyString :: split c s'
      else match split c s' with
           | [] => [String a EmptyString]
           | w :: ws => String a w :: ws
           end
  end.

(** [c in s] for a character. *)
Fixpoint contains (c : ascii) (s : string) : bool :=
  match s with
  | EmptyString => false
  | String a s' => Ascii.eqb a c || contains c s'
  end.

(** A path is kept as the list of its components after [os.path.abspath]:
    absolute, normalised, split on [os.sep], empty components dropped. *)
Abbreviation path := (list string) (only parsing).

(** [os.path.join(p, name)] for a single relative component. *)
Definition path_join (p : path) (name : string) : path := p ++ [name].

(** [os.path.basename(p)]. *)
Definition basename (p : path) : string := last p EmptyString.

(** The names a directory entry can carry: not empty, neither [.] nor
    [..], and free of the separator. *)
Definition valid_name (s : string) : bool :=
  negb (s =? EmptyString) && negb (s =? curdir) && negb (s =? pardir)
  && negb (contains sep s).

(** Length of the longest common prefix of two component lists
    ([len(commonprefix([start_list, path_list]))] in [posixpath.relpath]). *)
Fixpoint commonprefix_len (l1 l2 : list string) : nat :=
  match l1, l2 with
  | a :: l1', b :: l2' => if a =? b then S (commonprefix_len l1' l2') else 0
  | _, _ => 0
  end.

(** [os.path.relpath(p, start)]:
      i = len(commonprefix([start_list, path_list]))
      rel_list = [pardir] * (len(start_list) - i) + path_list[i:]
      if not rel_list: return curdir
      return join of rel_list
    [join] of components that are not empty and hold no separator is the
    concatenation with [os.sep] between them. *)
Definition relpath (p start : path) : string :=
  let i := commonprefix_len start p in
  let rel_list := repeat pardir (List.length start - i) ++ skipn i p in
  match rel_list with
  | [] => curdir
  | _ => String.concat (String sep EmptyString) rel_list
  end.

(** The path decomposer of [upload_directory] (lines 86 to 89): the
    relative path of the visited directory and, unless that is the current-directory marker,
    its components. *)
Definition path_decomposer (local_directory root : path) : list string :=
  let relative_path := relpath root local_directory in
  if negb (relative_path =? ".") then split sep relative_path else [].

(** ** The local file system *)

(** A directory: its sub-directories by name, in the order [os.scandir]
    lists them, and the names of its files. *)
Unset Elimination Schemes.
Inductive tree : Type :=
| Dir (dirs : list (string * tree)) (files : list string).
Set Elimination Schemes.

(** [os.walk(top)], top-down, errors ignored, links not followed: the
    triple of the directory itself, then the walks of its sub-directories
    in order. *)
Fixpoint os_walk (top : path) (t : tree) : list (path * list string * list string) :=
  match t with
  | Dir dirs files =>
      (top, map fst dirs, files)
        :: flat_map (fun d => os_walk (path_join top (fst d)) (snd d)) dirs
  end.

(** ** Python effects *)

(** What [except Exception] catches; the message is what an f-string
    shows of it. *)
Inductive exn : Type :=
| Exception (msg : string).

Definition exn_msg (e : exn) : string :=
  match e with Exception msg => msg end.

Inductive result (A : Type) : Type :=
| Ok (a : A)
| Raise (e : exn).
Arguments Ok {A} a.
Arguments Raise {A} e.

(** The observable trace: a line printed, or a completed call of one of
    the two adapters with its arguments and the value it returned. *)
Inductive event : Type :=
| Print (line : string)
| CreateFolder (folder_name : string) (parent_folder_id : option string)
    (ret : option string)
| UploadFile (file_path : path) (parent_folder_id : option string)
    (ret : option string).

(** The body of a [files().create] request. *)
Record file_metadata : Type := {
  name : string;
  mimeType : option string;
  parents : option (list string)
}.

(** [service.files().create(body=..., media_body=..., fields='id')]. *)
Inductive request : Type :=
| files_create (body : file_metadata) (media_body : option path).

(** A response is a JSON object; [dict_get] is [d.get(k)]. *)
Definition response := list (string * string).

Fixpoint dict_get (d : response) (k : string) : option string :=
  match d with
  | [] => None
  | (k', v) :: d' => if k' =? k then Some v else dict_get d' k
  end.

(** Truth value of an optional string: [None] and the empty string are
    false. *)
Definition truthy (o : option string) : bool :=
  match o with
  | Some s => negb (s =? EmptyString)
  | None => false
  end.

Module Py.

(** A computation over a store state [S]: the new state, the trace it
    produced, and its value or the exception it raised. *)
Definition py (S A : Type) : Type := S -> S * list event * result A.

Definition ret {S A} (a : A) : py S A := fun s => (s, [], Ok a).

Definition bind {S A B} (m : py S A) (f : A -> py S B) : py S B :=
  fun s =>
    match m s with
    | (s1, t1, Ok a) =>
        match f a s1 with
        | (s2, t2, r) => (s2, t1 ++ t2, r)
        end
    | (s1, t1, Raise e) => (s1, t1, Raise e)
    end.

(** [try: m except Exception as e: h e]. *)
Definition try_except {S A} (m : py S A) (h : exn -> py S A) : py S A :=
  fun s =>
    match m s with
    | (s1, t1, Ok a) => (s1, t1, Ok a)
    | (s1, t1, Raise e) =>
        match h e s1 with
        | (s2, t2, r) => (s2, t1 ++ t2, r)
        end
    end.

Definition emit {S} (e : event) : py S unit := fun s => (s, [e], Ok tt).

Definition print {S} (line : string) : py S unit := emit (Print line).

(** A library call that returns or raises without touching the store. *)
Definition lift {S A} (r : result A) : py S A := fun s => (s, [], r).

(** Runs [m] and records the completed call with the value returned. *)
Definition traced {S A} (mk : A -> event) (m : py S A) : py S A :=
  bind m (fun a => bind (emit (mk a)) (fun _ => ret a)).

Definition state_of {S A} (x : S * list event * result A) : S := fst (fst x).
Definition trace_of {S A} (x : S * list event * result A) : list event :=
  snd (fst x).
Definition value_of {S A} (x : S * list event * result A) : result A := snd x.

End Py.
Import Py.

Declare Scope py_scope.
Delimit Scope py_scope with py.
Notation "x <- m ;; k" := (bind m (fun x => k))
  (at level 61, m at next level, right associativity) : py_scope.
Notation "m ;;; k" := (bind m (fun _ => k))
  (at level 61, right associativity) : py_scope.

(** The text an f-string shows for a path. *)
Definition path_str (p : path) : string :=
  String.concat EmptyString (map (fun c => String sep c) p).

Definition folder_mime : string := "application/vnd.google-apps.folder".

(** [file_metadata['parents'] = [parent_folder_id]], done only under
    [if parent_folder_id:]. *)
Definition parents_of (parent_folder_id : option string) : option (list string) :=
  match parent_folder_id with
  | Some p => if truthy parent_folder_id then Some [p] else None
  | None => None
  end.

(** The line printed before the [return] of [upload_directory]. *)
Definition failed_line (folder_name : string) : string :=
  ("Failed to create folder '" ++ folder_name ++ "'. Skipping...")%string.

(** How a [return] inside a loop leaves it. *)
Inductive control : Type :=
| Next
| Returned.

Section Drive.

(** The remote store behind the API client: an abstract state and what
    [execute()] does to it; and the constructor [MediaFileUpload], which
    opens the local file. *)
Variable service : Type.
Variable execute : service -> request -> service * result response.
Variable MediaFileUpload : path -> result path.

Local Open Scope py_scope.

Definition remote (req : request) : py service response :=
  fun s => let (s', r) := execute s req in (s', [], r).

(** [create_folder(service, folder_name, parent_folder_id=None)]. *)
Definition create_folder (folder_name : string)
    (parent_folder_id : option string) : py service (option string) :=
  try_except
    (let file_metadata :=
       {| name := folder_name;
          mimeType := Some folder_mime;
          parents := parents_of parent_folder_id |} in
     folder <- remote (files_create file_metadata None) ;;
     ret (dict_get folder "id"))
    (fun e =>
       print ("Error creating folder '" ++ folder_name ++ "': " ++ exn_msg e)%string ;;;
       ret None).

(** [upload_file(service, file_path, parent_folder_id=None)]. *)
Definition upload_file (file_path : path)
    (parent_folder_id : option string) : py service (option string) :=
  try_except
    (let file_name := basename file_path in
     let file_metadata :=
       {| name := file_name;
          mimeType := None;
          parents := parents_of parent_folder_id |} in
     media <- lift (MediaFileUpload file_path) ;;
     file <- remote (files_create file_metadata (Some media)) ;;
     ret (dict_get file "id"))
    (fun e =>
       print ("Error uploading file '" ++ path_str file_path ++ "': " ++ exn_msg e)%string ;;;
       ret None).

(** The loop [for folder_name in folder_names] of [upload_directory]:
    [None] when it ran into the [return], otherwise the final
    [current_folder_id]. *)
Fixpoint create_folders (folder_names : list string)
    (current_folder_id : option string) : py service (option (option string)) :=
  match folder_names with
  | [] => ret (Some current_folder_id)
  | folder_name :: rest =>
      folder_id <- traced (CreateFolder folder_name current_folder_id)
                     (create_folder folder_name current_folder_id) ;;
      match folder_id with
      | None =>
          print (failed_line folder_name) ;;;
          ret None
      | Some _ => create_folders rest folder_id
      end
  end.

(** The loop [for file_name in files]. *)
Fixpoint upload_files (root : path) (files : list string)
    (current_folder_id : option string) : py service unit :=
  match files with
  | [] => ret tt
  | file_name :: rest =>
      let file_path := path_join root file_name in
      _ <- traced (UploadFile file_path current_folder_id)
             (upload_file file_path current_folder_id) ;;
      upload_files root rest current_folder_id
  end.

(** One round of the loop over [os.walk]: the folders of the relative
    path, then the files. *)
Definition visit (local_directory : path) (parent_folder_id : option string)
    (entry : path * list string * list string) : py service control :=
  let '(root, _, files) := entry in
  let relative_path := relpath root local_directory in
  let current_folder_id := parent_folder_id in
  resolved <- (if negb (relative_path =? ".")
               then create_folders (split sep relative_path) current_folder_id
               else ret (Some current_folder_id)) ;;
  match resolved with
  | None => ret Returned
  | Some current_folder_id =>
      upload_files root files current_folder_id ;;;
      ret Next
  end.

(** The loop [for root, dirs, files in os.walk(local_directory)]. *)
Fixpoint walk_loop (local_directory : path) (parent_folder_id : option string)
    (entries : list (path * list string * list string)) : py service control :=
  match entries with
  | [] => ret Next
  | entry :: rest =>
      c <- visit local_directory parent_folder_id entry ;;
      match c with
      | Returned => ret Returned
      | Next => walk_loop local_directory parent_folder_id rest
      end
  end.

(** [upload_directory(service, local_directory, parent_folder_id=None)],
    run on the directory tree [t] found at [local_directory]. *)
Definition upload_directory (local_directory : path) (t : tree)
    (parent_folder_id : option string) : py service unit :=
  walk_loop local_directory parent_folder_id (os_walk local_directory t) ;;;
  ret tt.

End Drive.

(** ** Trees, traces and what is said about them *)

(** No two entries of a directory share a name. *)
Fixpoint nodupb (l : list string) : bool :=
  match l with
  | [] => true
  | x :: l' => negb (existsb (String.eqb x) l') && nodupb l'
  end.

(** A tree as a file system holds it: directory names are valid, and the
    entries of one directory (sub-directories and files) are pairwise
    distinct. *)
Fixpoint wf_tree (t : tree) : bool :=
  match t with
  | Dir dirs files =>
      forallb valid_name (map fst dirs)
      && nodupb (map fst dirs ++ files)
      && forallb (fun d => wf_tree (snd d)) dirs
  end.

(** Only directories, no file anywhere. *)
Fixpoint no_files (t : tree) : bool :=
  match t with
  | Dir dirs files =>
      match files with [] => true | _ :: _ => false end
      && forallb (fun d => no_files (snd d)) dirs
  end.

(** Number of directories below the root of [t] (the root not counted). *)
Fixpoint count_dirs (t : tree) : nat :=
  match t with
  | Dir dirs _ => list_sum (map (fun d => S (count_dirs (snd d))) dirs)
  end.

(** Sum, over the directories of [t], of their depth, the root of [t]
    being at depth [d]. *)
Fixpoint depth_sum (d : nat) (t : tree) : nat :=
  match t with
  | Dir dirs _ => d + list_sum (map (fun x => depth_sum (S d) (snd x)) dirs)
  end.

(** No directory lies deeper than [d] levels below the root. *)
Fixpoint depth_le (d : nat) (t : tree) : bool :=
  match t with
  | Dir dirs _ =>
      match d with
      | 0 => match dirs with [] => true | _ :: _ => false end
      | S d' => forallb (fun x => depth_le d' (snd x)) dirs
      end
  end.

(** The directories of [t] with their files, by path relative to the
    root, in the order of the walk. *)
Definition rel_walk (t : tree) : list (path * list string * list string) :=
  os_walk [] t.

Definition is_create (e : event) : bool :=
  match e with CreateFolder _ _ _ => true | _ => false end.

Definition is_upload (e : event) : bool :=
  match e with UploadFile _ _ _ => true | _ => false end.

Definition is_print (e : event) : bool :=
  match e with Print _ => true | _ => false end.

Definition is_failed_create (e : event) : bool :=
  match e with CreateFolder _ _ None => true | _ => false end.

(** The adapter calls of a trace, printed lines left out. *)
Definition calls (tr : list event) : list event :=
  filter (fun e => negb (is_print e)) tr.

Definition count_creates (tr : list event) : nat :=
  List.length (filter is_create tr).

(** The arguments of the [upload_file] calls of a trace, in order. *)
Fixpoint upload_args (tr : list event) : list (path * option string) :=
  match tr with
  | [] => []
  | UploadFile fp parent _ :: tr' => (fp, parent) :: upload_args tr'
  | _ :: tr' => upload_args tr'
  end.

(** The successful creations of the folders [names], one under the other
    from [cur] down, returning [ids]. *)
Fixpoint chain_calls (names : list string) (cur : option string)
    (ids : list string) : list event :=
  match names, ids with
  | n :: names', i :: ids' =>
      CreateFolder n cur (Some i) :: chain_calls names' (Some i) ids'
  | _, _ => []
  end.

(** The folder a chain ends in: the last id, or the start when empty. *)
Definition resolved (cur : option string) (ids : list string) : option string :=
  last (map Some ids) cur.

(** One call [upload_file(root/f, cur)] per file [f], in order, whatever
    each returned. *)
Inductive uploads_of (root : path) (cur : option string) :
    list string -> list event -> Prop :=
| uploads_nil : uploads_of root cur [] []
| uploads_cons f files r tr :
    uploads_of root cur files tr ->
    uploads_of root cur (f :: files) (UploadFile (path_join root f) cur r :: tr).

(** The calls of a run in which every folder creation succeeded: for each
    directory of the walk in turn, the chain of its path from the top
    parent, then its files into the folder the chain ends in. *)
Inductive mirrored (top : path) (parent : option string) :
    list (path * list string * list string) -> list event -> Prop :=
| mirrored_nil : mirrored top parent [] []
| mirrored_cons segs dirs files rest ids ups tr :
    List.length ids = List.length segs ->
    uploads_of (top ++ segs) (resolved parent ids) files ups ->
    mirrored top parent rest tr ->
    mirrored top parent ((segs, dirs, files) :: rest)
      (chain_calls segs parent ids ++ ups ++ tr).


(** The reading of the remote structure in which every directory below the
    root has one folder of its own, made under the folder of its parent
    directory, and every file goes to the folder of its directory. *)
Definition one_folder_per_directory (top : path) (parent : option string)
    (t : tree) (tr : list event) : Prop :=
  exists folder_of : path -> option string,
    folder_of [] = parent /\
    Permutation (filter is_create tr)
      (map (fun segs =>
              CreateFolder (last segs EmptyString)
                (folder_of (removelast segs)) (folder_of segs))
         (tl (map (fun e => fst (fst e)) (rel_walk t)))) /\
    Permutation (upload_args tr)
      (flat_map (fun e =>
                   map (fun f => (path_join (top ++ fst (fst e)) f,
                                  folder_of (fst (fst e))))
                     (snd e))
         (rel_walk t)).

(** Every [execute()] of a folder creation returns an object with an id. *)
Definition creates_succeed {service : Type}
    (execute : service -> request -> service * result response) : Prop :=
  forall s body, exists s' d i,
    execute s (files_create body None) = (s', Ok d) /\ dict_get d "id" = Some i.

(** Every remote call returns an object with an id, and every local file
    opens. *)
Definition all_succeed {service : Type}
    (execute : service -> request -> service * result response)
    (MediaFileUpload : path -> result path) : Prop :=
  (forall s req, exists s' d i,
      execute s req = (s', Ok d) /\ dict_get d "id" = Some i) /\
  (forall p, exists m, MediaFileUpload p = Ok m).

(** ** A store to run the code on *)

Module TestDrive.

(** Ids [F1], [F2], ... in the order of creation. *)
Fixpoint digits (fuel n : nat) (acc : string) : string :=
  match fuel with
  | 0 => acc
  | S fuel' =>
      let d := String (ascii_of_nat (48 + n mod 10)) acc in
      if n / 10 =? 0 then d else digits fuel' (n / 10) d
  end%nat.

Definition fresh_id (n : nat) : string :=
  String "F"%char (digits (S n) (S n) EmptyString).

(** A store that numbers what it creates and refuses the names listed in
    [failing]. *)
Definition execute (failing : list string) (n : nat) (req : request)
    : nat * result response :=
  match req with
  | files_create body _ =>
      if existsb (String.eqb (name body)) failing
      then (n, Raise (Exception "HttpError 500"))
      else (S n, Ok [("id", fresh_id n)])
  end.

Definition media (p : path) : result path := Ok p.

Definition run (failing : list string) (top : path) (t : tree)
    (parent : option string) : list event :=
  trace_of (upload_directory (execute failing) media top t parent 0).

(** [root/{a.txt, sub/b.txt}]. *)
Definition tree_flat : tree :=
  Dir [("sub", Dir [] ["b.txt"])] ["a.txt"].

(** [root/a/b/f.txt], with [g.txt] in [a]. *)
Definition tree_nested : tree :=
  Dir [("a", Dir [("b", Dir [] ["f.txt"])] ["g.txt"])] [].

(** [root/a/b], no file. *)
Definition tree_empty_dirs : tree :=
  Dir [("a", Dir [("b", Dir [] [])] [])] [].

(** [root/{d1/y.txt, d2/x.txt}]. *)
Definition tree_siblings : tree :=
  Dir [("d1", Dir [] ["y.txt"]); ("d2", Dir [] ["x.txt"])] [].

Definition top : path := ["home"; "photos"].

End TestDrive.

(** The requests the two adapters send. *)
Definition folder_request (folder_name : string) (parent : option string) : request :=
  files_create
    {| name := folder_name; mimeType := Some folder_mime;
       parents := parents_of parent |} None.

Definition file_request (file_path media : path) (parent : option string) : request :=
  files_create
    {| name := basename file_path; mimeType := None;
       parents := parents_of parent |} (Some media).

(** ** Shapes of the traces of the loops *)

Definition all_prints (tr : list event) : Prop :=
  Forall (fun e => is_print e = true) tr.

(** What the loop over [folder_names] can come to: every folder made, or
    the folders of [done] made, the creation of [name] returning [None]
    (after the lines [out] it may have printed), the diagnostic, and the
    [return]. *)
Inductive folders_outcome {S : Type} (names : list string)
    (cur : option string) : S * list event * result (option (option string)) -> Prop :=
| folders_made s' ids tr r :
    List.length ids = List.length names ->
    tr = chain_calls names cur ids ->
    r = Some (resolved cur ids) ->
    folders_outcome names cur (s', tr, Ok r)
| folders_failed s' done name rest ids out tr :
    names = done ++ name :: rest ->
    List.length ids = List.length done ->
    all_prints out ->
    tr = chain_calls done cur ids ++ out
           ++ [CreateFolder name (resolved cur ids) None;
               Print (failed_line name)] ->
    folders_outcome names cur (s', tr, Ok None).

(** The trace of the loop over [files]: one call per file, in order, each
    after the lines it printed. *)
Inductive uploads_trace (root : path) (cur : option string) :
    list string -> list event -> Prop :=
| uploads_trace_nil : uploads_trace root cur [] []
| uploads_trace_cons f files out r tr :
    all_prints out ->
    uploads_trace root cur files tr ->
    uploads_trace root cur (f :: files)
      (out ++ UploadFile (path_join root f) cur r :: tr).

(** The trace of the loop over the walk and how the loop ended: round by
    round the folders of the directory's relative path and its files, up
    to the end of the walk or to the first creation that returned
    [None]. *)
Inductive walk_outcome (top : path) (parent : option string) :
    list (path * list string * list string) -> list event -> control -> Prop :=
| walk_done : walk_outcome top parent [] [] Next
| walk_step root dirs files rest ids ups tr c :
    List.length ids = List.length (path_decomposer top root) ->
    uploads_trace root (resolved parent ids) files ups ->
    walk_outcome top parent rest tr c ->
    walk_outcome top parent ((root, dirs, files) :: rest)
      (chain_calls (path_decomposer top root) parent ids ++ ups ++ tr) c
| walk_abort root dirs files rest done name rest' ids out :
    path_decomposer top root = done ++ name :: rest' ->
    List.length ids = List.length done ->
    all_prints out ->
    walk_outcome top parent ((root, dirs, files) :: rest)
      (chain_calls done parent ids ++ out
         ++ [CreateFolder name (resolved parent ids) None;
             Print (failed_line name)])
      Returned.

(** An entry of the walk of a tree found at [top], from the entry by
    relative path. *)
Definition shift (top : path) (e : path * list string * list string)
    : path * list string * list string :=
  (top ++ fst (fst e), snd (fst e), snd e).

Definition valid_path (p : path) : Prop :=
  Forall (fun s => valid_name s = true) p.

(** [f] is a file of the directory of [t] at the relative path [segs]. *)
Definition file_of (t : tree) (segs : path) (f : string) : Prop :=
  exists dirs files, In (segs, dirs, files) (rel_walk t) /\ In f files.

(** ** The rest of the program *)

(** The paths of all the files of the tree found at [top], in the order of
    the walk. *)
Definition all_file_paths (top : path) (t : tree) : list path :=
  flat_map (fun e => map (path_join (top ++ fst (fst e))) (snd e)) (rel_walk t).

(** A local file that cannot be opened. *)
Definition unreadable (p : path) : result path :=
  Raise (Exception "FileNotFoundError").

(** Two results of the driver with the same effect: the same final store
    and the same value. *)
Definition same_effect {S A : Type} (x y : S * list event * result A) : Prop :=
  state_of x = state_of y /\ value_of x = value_of y.

(** ** Authentication *)

Module Auth.

(** What [authenticate_google_drive] reads of a credentials object. *)
Record credentials : Type := {
  valid : bool;
  expired : bool;
  refresh_token : option string;
  access_token : string
}.

(** The file [token.pickle]: missing, holding pickled credentials, or
    holding something [pickle.load] rejects. *)
Inductive token_file : Type :=
| Absent
| Pickled (creds : credentials)
| Corrupt.

(** The calls the function makes to the libraries, in order. *)
Inductive action : Type :=
| Refresh (creds : credentials)
| RunLocalServer (credentials_file : string)
| Dump (creds : credentials)
| Build (creds : credentials).

Section Authenticate.

(** [creds.refresh(Request())] gives the credentials as updated in place,
    [InstalledAppFlow.from_client_secrets_file(...).run_local_server(port=0)]
    new ones, [build('drive', 'v3', credentials=creds)] the client; each
    may raise. The working directory accepts the write of the token. *)
Variable handle : Type.
Variable refresh : credentials -> result credentials.
Variable run_local_server : string -> result credentials.
Variable build : credentials -> result handle.

(** Lines 27 to 31: [creds] stays [None] without the file. *)
Definition load (tok : token_file) : result (option credentials) :=
  match tok with
  | Absent => Ok None
  | Pickled c => Ok (Some c)
  | Corrupt => Raise (Exception "UnpicklingError")
  end.

(** Lines 34 to 38: refresh when [creds and creds.expired and
    creds.refresh_token], the local server flow otherwise. *)
Definition obtain (credentials_file : string) (creds : option credentials)
    : list action * result credentials :=
  match creds with
  | Some c =>
      if expired c && truthy (refresh_token c)
      then ([Refresh c], refresh c)
      else ([RunLocalServer credentials_file], run_local_server credentials_file)
  | None => ([RunLocalServer credentials_file], run_local_server credentials_file)
  end.

(** Lines 39 to 42 after the credentials were obtained: the token is
    written and the client built; an exception on the way leaves the token
    file as it was. *)
Definition save_and_build (tok : token_file)
    (got : list action * result credentials)
    : token_file * list action * result handle :=
  match got with
  | (acts, Raise e) => (tok, acts, Raise e)
  | (acts, Ok c') => (Pickled c', acts ++ [Dump c'; Build c'], build c')
  end.

(** [authenticate_google_drive(credentials_file)] run on the token file
    [tok]: the token file afterwards, the library calls made, and the
    client or the exception. *)
Definition authenticate_google_drive (credentials_file : string)
    (tok : token_file) : token_file * list action * result handle :=
  match load tok with
  | Raise e => (tok, [], Raise e)
  | Ok creds =>
      match creds with
      | Some c =>
          if valid c then (tok, [Build c], build c)
          else save_and_build tok (obtain credentials_file creds)
      | None => save_and_build tok (obtain credentials_file creds)
      end
  end.

End Authenticate.

(** The local server flow is started by the run. *)
Definition runs_flow (acts : list action) : bool :=
  existsb (fun a => match a with RunLocalServer _ => true | _ => false end) acts.

(** Cached credentials that call for the flow: none, or invalid ones that
    are not expired or carry no refresh token. *)
Definition needs_flow (tok : token_file) : bool :=
  match tok with
  | Absent => true
  | Pickled c => negb (valid c) && negb (expired c && truthy (refresh_token c))
  | Corrupt => false
  end.

Definition stale : credentials :=
  {| valid := false; expired := true; refresh_token := Some "r1";
     access_token := "old" |}.

Definition fresh : credentials :=
  {| valid := true; expired := false; refresh_token := Some "r1";
     access_token := "new" |}.

Definition revoked (c : credentials) : result credentials :=
  Raise (Exception "invalid_grant").

Definition renew (c : credentials) : result credentials := Ok fresh.

Definition consent (credentials_file : string) : result credentials := Ok fresh.

Definition client (c : credentials) : result string := Ok (access_token c).

End Auth.

(** ** copy_files.py *)

Module CopyFiles.

(** The loop of [find_file] over the walk: the first directory whose
    [files] hold the name. *)
Fixpoint find_in_walk (file_name : string)
    (entries : list (path * list string * list string)) : option path :=
  match entries with
  | [] => None
  | (root, _, files) :: rest =>
      if existsb (String.eqb file_name) files
      then Some (path_join root file_name)
      else find_in_walk file_name rest
  end.

(** [find_file(file_name, directory)] on the tree found at [directory]. *)
Definition find_file (file_name : string) (directory : path) (t : tree)
    : option path :=
  find_in_walk file_name (os_walk directory t).

Section Copy.

(** The output directory and what [shutil.copy(file_path, output_dir)]
    does to it. *)
Variable outdir : Type.
Variable shutil_copy : outdir -> path -> outdir * result unit.

Local Open Scope py_scope.

Definition copy (file_path : path) : py outdir unit :=
  fun s => let (s', r) := shutil_copy s file_path in (s', [], r).

(** One round of the loop of [copy_files]; a path returned by [find_file]
    is a non-empty string, so [if file_path:] tells found from not
    found. *)
Definition copy_one (input_dir : path) (t : tree) (file_name : string)
    : py outdir unit :=
  print ("Searching for file: " ++ file_name)%string ;;;
  searched <- try_except
                (ret (Some (find_file file_name input_dir t)))
                (fun e =>
                   print ("Error searching for file '" ++ file_name ++ "': "
                          ++ exn_msg e)%string ;;;
                   ret None) ;;
  match searched with
  | None => ret tt
  | Some None => print ("File not found: " ++ file_name)%string
  | Some (Some file_path) =>
      print ("File found: " ++ file_name)%string ;;;
      try_except
        (copy file_path ;;;
         print ("File copied: " ++ file_name)%string)
        (fun e =>
           print ("Error copying file '" ++ file_name ++ "': "
                  ++ exn_msg e)%string)
  end.

(** [copy_files(file_list, input_dir, output_dir)]. *)
Fixpoint copy_files (file_list : list string) (input_dir : path) (t : tree)
    : py outdir unit :=
  match file_list with
  | [] => ret tt
  | file_name :: rest =>
      copy_one input_dir t file_name ;;;
      copy_files rest input_dir t
  end.

(** The copy of one listed name on the output directory alone. *)
Definition copy_step (input_dir : path) (t : tree) (s : outdir)
    (file_name : string) : outdir :=
  match find_file file_name input_dir t with
  | Some file_path => fst (shutil_copy s file_path)
  | None => s
  end.

End Copy.







(** How a function that may call [exit] ends. *)
Inductive outcome (A : Type) : Type :=
| Returns (a : A)
| Exits (code : nat).
Arguments Returns {A} a.
Arguments Exits {A} code.




(** An output directory as the list of the paths copied into it, latest
    first, refusing the paths in [locked]. *)
Definition test_copy (locked : list path) (s : list path) (p : path)
    : list path * result unit :=
  if existsb (fun q => if list_eq_dec string_dec p q then true else false) locked
  then (s, Raise (Exception "PermissionError"))
  else (p :: s, Ok tt).

(** [in/{a.jpg, x/{b.jpg, a.jpg}, y/c.jpg}]. *)
Definition photos : tree :=
  Dir [("x", Dir [] ["b.jpg"; "a.jpg"]); ("y", Dir [] ["c.jpg"])] ["a.jpg"].

End CopyFiles.

(** ** Paths as text *)











(** ** The adapters, with all that can be raised *)

Module Escaping.

(** What Python raises: an instance of [Exception], which
    [except Exception] catches, or of another class below [BaseException]
    ([KeyboardInterrupt], [SystemExit]), which it lets through. *)
Inductive raised : Type :=
| Exc (msg : string)
| Base (name : string).

Definition caught (x : raised) : bool :=
  match x with Exc _ => true | Base _ => false end.

Definition raised_str (x : raised) : string :=
  match x with Exc msg => msg | Base name => name end.

Inductive outcome (A : Type) : Type :=
| Returned (a : A)
| Raised (x : raised).
Arguments Returned {A} a.
Arguments Raised {A} x.

Definition xpy (S A : Type) : Type := S -> S * list event * outcome A.

Definition ret {S A} (a : A) : xpy S A := fun s => (s, [], Returned a).

Definition bind {S A B} (m : xpy S A) (f : A -> xpy S B) : xpy S B :=
  fun s =>
    match m s with
    | (s1, t1, Returned a) =>
        match f a s1 with
        | (s2, t2, r) => (s2, t1 ++ t2, r)
        end
    | (s1, t1, Raised x) => (s1, t1, Raised x)
    end.

(** [try: m except Exception as e: h e]: only what is [caught] reaches
    the handler, and what the handler raises leaves the statement. *)
Definition try_except {S A} (m : xpy S A) (h : raised -> xpy S A) : xpy S A :=
  fun s =>
    match m s with
    | (s1, t1, Returned a) => (s1, t1, Returned a)
    | (s1, t1, Raised x) =>
        if caught x
        then match h x s1 with
             | (s2, t2, r) => (s2, t1 ++ t2, r)
             end
        else (s1, t1, Raised x)
    end.

Definition value_of {S A} (x : S * list event * outcome A) : outcome A := snd x.

(** The lines of the two handlers. *)
Definition folder_line (folder_name msg : string) : string :=
  ("Error creating folder '" ++ folder_name ++ "': " ++ msg)%string.

Definition file_line (file_path msg : string) : string :=
  ("Error uploading file '" ++ file_path ++ "': " ++ msg)%string.

(** [os.path.basename(p)] on text. *)
Definition basename_text (p : string) : string := last (split sep p) EmptyString.

(** The request [upload_file] sends for the file at [file_path], given as
    text. *)
Definition file_request_text (file_path : string) (media : path)
    (parent : option string) : request :=
  files_create
    {| name := basename_text file_path; mimeType := None;
       parents := parents_of parent |} (Some media).

(** The response holds the id [i] under its first key [id]. *)
Definition has_id (d : response) (i : string) : Prop :=
  exists l1 l2, d = l1 ++ ("id", i) :: l2 /\ ~ In "id" (map fst l1).

Section Adapters.

(** The remote store, the constructor [MediaFileUpload] on the path as
    given, and [write]: what printing a line raises, if anything (an
    unencodable character, a closed output). *)
Variable service : Type.
Variable execute : service -> request -> service * outcome response.
Variable MediaFileUpload : string -> outcome path.
Variable write : string -> option raised.

Definition print (line : string) : xpy service unit :=
  fun s =>
    match write line with
    | None => (s, [Print line], Returned tt)
    | Some x => (s, [], Raised x)
    end.

Definition remote (req : request) : xpy service response :=
  fun s => let (s', r) := execute s req in (s', [], r).

Definition lift {A} (r : outcome A) : xpy service A := fun s => (s, [], r).

(** [create_folder(service, folder_name, parent_folder_id=None)]. *)
Definition create_folder (folder_name : string)
    (parent_folder_id : option string) : xpy service (option string) :=
  try_except
    (bind (remote (folder_request folder_name parent_folder_id))
       (fun folder => ret (dict_get folder "id")))
    (fun e =>
       bind (print (folder_line folder_name (raised_str e)))
         (fun _ => ret None)).

(** [upload_file(service, file_path, parent_folder_id=None)]. *)
Definition upload_file (file_path : string)
    (parent_folder_id : option string) : xpy service (option string) :=
  try_except
    (bind (lift (MediaFileUpload file_path))
       (fun media =>
          bind (remote (file_request_text file_path media parent_folder_id))
            (fun file => ret (dict_get file "id"))))
    (fun e =>
       bind (print (file_line file_path (raised_str e)))
         (fun _ => ret None)).

End Adapters.

(** A result of the model in which only instances of [Exception] are
    raised, and a store of that model, seen here. *)
Definition of_result {A : Type} (r : result A) : outcome A :=
  match r with
  | Ok a => Returned a
  | Raise e => Raised (Exc (exn_msg e))
  end.

Definition of_execute {S : Type}
    (execute : S -> request -> S * result response)
    : S -> request -> S * outcome response :=
  fun s req => let (s', r) := execute s req in (s', of_result r).

(** A store interrupted from the keyboard, a store that refuses, and an
    output that rejects every line. *)
Definition interrupted (s : nat) (req : request) : nat * outcome response :=
  (s, Raised (Base "KeyboardInterrupt")).

Definition refusing (s : nat) (req : request) : nat * outcome response :=
  (s, Raised (Exc "HttpError 403")).

Definition accepting (s : nat) (req : request) : nat * outcome response :=
  (S s, Returned [("kind", "drive#file"); ("id", "F1")]).

Definition opened (file_path : string) : outcome path := Returned [file_path].

Definition quiet (line : string) : option raised := None.

Definition unencodable (line : string) : option raised :=
  Some (Exc "UnicodeEncodeError").

End Escaping.

(** * Properties *)

Unset Implicit Arguments.

(** ** Splitting and joining *)


Lemma split_no_sep c s : contains c s = false -> split c s = [s].
Proof.
  induction s as [|a s IH]; simpl; intros H; [reflexivity|].
  apply orb_false_iff in H. destruct H as [Ha Hs].
  rewrite Ha, (IH Hs). reflexivity.
Qed.

Lemma split_app_sep c a b :
  contains c a = false ->
  split c (a ++ String c b)%string = a :: split c b.
Proof.
  induction a as [|x a IH]; simpl; intros H.
  - rewrite Ascii.eqb_refl. reflexivity.
  - apply orb_false_iff in H. destruct H as [Hx Ha].
    rewrite Hx, (IH Ha). reflexivity.
Qed.

Definition sep_free (s : string) : Prop := contains sep s = false.

Lemma split_concat l :
  l <> [] -> Forall sep_free l ->
  split sep (String.concat (String sep EmptyString) l) = l.
Proof.
  induction l as [|a l IH]; intros Hne Hl; [congruence|].
  inversion Hl as [|? ? Ha Hl']; subst.
  destruct l as [|b l].
  - simpl. apply split_no_sep, Ha.
  - change (String.concat (String sep EmptyString) (a :: b :: l))
      with (a ++ String sep (String.concat (String sep EmptyString) (b :: l)))%string.
    rewrite split_app_sep by exact Ha.
    rewrite IH; [reflexivity|discriminate|assumption].
Qed.

Lemma valid_name_sep_free s : valid_name s = true -> sep_free s.
Proof.
  unfold valid_name, sep_free. intros H.
  apply andb_true_iff in H. destruct H as [_ H].
  apply negb_true_iff in H. exact H.
Qed.

Lemma valid_name_not_curdir s : valid_name s = true -> s <> curdir.
Proof.
  unfold valid_name. intros H Heq. subst s. discriminate H.
Qed.

Lemma valid_name_not_empty s : valid_name s = true -> s <> EmptyString.
Proof.
  unfold valid_name. intros H Heq. subst s. discriminate H.
Qed.

Lemma length_app_string (a b : string) :
  String.length (a ++ b)%string = String.length a + String.length b.
Proof.
  induction a as [|x a IH]; simpl; [reflexivity|]. rewrite IH. reflexivity.
Qed.

(** Two or more components, the first not empty: the joined text is
    longer than one character. *)
Lemma concat_two_long a b l :
  a <> EmptyString ->
  2 <= String.length (String.concat (String sep EmptyString) (a :: b :: l)).
Proof.
  intros Ha.
  change (String.concat (String sep EmptyString) (a :: b :: l))
    with (a ++ String sep (String.concat (String sep EmptyString) (b :: l)))%string.
  rewrite length_app_string. simpl.
  destruct a; [congruence|simpl; lia].
Qed.

Lemma concat_valid_not_curdir l :
  l <> [] -> Forall (fun s => valid_name s = true) l ->
  String.concat (String sep EmptyString) l <> curdir.
Proof.
  intros Hne Hl. destruct l as [|a l]; [congruence|].
  inversion Hl as [|? ? Ha Hl']; subst.
  destruct l as [|b l].
  - simpl. apply valid_name_not_curdir, Ha.
  - intros Heq.
    pose proof (concat_two_long a b l (valid_name_not_empty _ Ha)) as Hlen.
    rewrite Heq in Hlen. simpl in Hlen. lia.
Qed.

(** ** The relative path of a directory of the walk *)

Lemma commonprefix_len_app top segs :
  commonprefix_len top (top ++ segs) = List.length top.
Proof.
  induction top as [|a top IH]; simpl.
  - destruct segs; reflexivity.
  - rewrite String.eqb_refl, IH. reflexivity.
Qed.

Lemma relpath_under top segs :
  relpath (top ++ segs) top =
  match segs with
  | [] => curdir
  | _ => String.concat (String sep EmptyString) segs
  end.
Proof.
  unfold relpath. rewrite commonprefix_len_app, Nat.sub_diag.
  rewrite skipn_app, skipn_all, Nat.sub_diag. simpl. reflexivity.
Qed.

Lemma path_decomposer_under top segs :
  Forall (fun s => valid_name s = true) segs ->
  path_decomposer top (top ++ segs) = segs.
Proof.
  intros Hv. unfold path_decomposer. rewrite relpath_under.
  destruct segs as [|a l]; [reflexivity|].
  assert (Hne : String.concat (String sep EmptyString) (a :: l) <> ".").
  { apply concat_valid_not_curdir; [discriminate|assumption]. }
  apply String.eqb_neq in Hne. rewrite Hne. simpl negb. cbv iota.
  apply split_concat; [discriminate|].
  eapply Forall_impl; [|exact Hv]. intros s. apply valid_name_sep_free.
Qed.

Lemma path_decomposer_root top : path_decomposer top top = [].
Proof.
  rewrite <- (app_nil_r top) at 2. apply path_decomposer_under. constructor.
Qed.

(** ** Running computations *)

Lemma bind_run {S A B} (m : py S A) (f : A -> py S B) s s1 t1 a :
  m s = (s1, t1, Ok a) ->
  bind m f s = (let '(s2, t2, r) := f a s1 in (s2, t1 ++ t2, r)).
Proof.
  intros H. unfold bind. rewrite H. destruct (f a s1) as [[s2 t2] r]. reflexivity.
Qed.

Lemma bind_run_eq {S A B} (m : py S A) (f : A -> py S B) s s1 t1 a s2 t2 r :
  m s = (s1, t1, Ok a) -> f a s1 = (s2, t2, r) ->
  bind m f s = (s2, t1 ++ t2, r).
Proof.
  intros H1 H2. unfold bind. rewrite H1, H2. reflexivity.
Qed.

Lemma bind_assoc {S A B C} (m : py S A) (f : A -> py S B) (g : B -> py S C) s :
  bind (bind m f) g s = bind m (fun a => bind (f a) g) s.
Proof.
  unfold bind. destruct (m s) as [[s1 t1] [a|e]]; [|reflexivity].
  destruct (f a s1) as [[s2 t2] [b|e]]; [|reflexivity].
  destruct (g b s2) as [[s3 t3] r]. rewrite app_assoc. reflexivity.
Qed.

Lemma all_prints_app a b : all_prints a -> all_prints b -> all_prints (a ++ b).
Proof. unfold all_prints. intros. apply Forall_app. split; assumption. Qed.

Lemma all_prints_no_create tr : all_prints tr -> filter is_create tr = [].
Proof.
  induction 1 as [|e tr He _ IH]; [reflexivity|].
  simpl. destruct e; try discriminate. exact IH.
Qed.

Lemma all_prints_no_upload tr : all_prints tr -> upload_args tr = [].
Proof.
  induction 1 as [|e tr He _ IH]; [reflexivity|].
  simpl. destruct e; try discriminate. exact IH.
Qed.

Lemma all_prints_no_calls tr : all_prints tr -> calls tr = [].
Proof.
  induction 1 as [|e tr He _ IH]; [reflexivity|].
  unfold calls. simpl. rewrite He. exact IH.
Qed.

Lemma upload_args_app a b : upload_args (a ++ b) = upload_args a ++ upload_args b.
Proof.
  induction a as [|e a IH]; [reflexivity|].
  simpl. destruct e; simpl; rewrite ?IH; reflexivity.
Qed.

Lemma calls_app a b : calls (a ++ b) = calls a ++ calls b.
Proof. apply filter_app. Qed.

Lemma count_creates_app a b :
  count_creates (a ++ b) = count_creates a + count_creates b.
Proof. unfold count_creates. rewrite filter_app, length_app. reflexivity. Qed.

(** ** The two adapters *)

Section Adapters.

Context {service : Type}.
Variable execute : service -> request -> service * result response.
Variable MediaFileUpload : path -> result path.

Lemma create_folder_run folder_name parent s :
  create_folder execute folder_name parent s =
  match execute s (folder_request folder_name parent) with
  | (s', Ok folder) => (s', [], Ok (dict_get folder "id"))
  | (s', Raise e) =>
      (s', [Print ("Error creating folder '" ++ folder_name ++ "': " ++ exn_msg e)%string],
       Ok None)
  end.
Proof.
  unfold create_folder, try_except, bind, remote, folder_request.
  destruct (execute s _) as [s' [folder|e]]; reflexivity.
Qed.

Lemma upload_file_run file_path parent s :
  upload_file execute MediaFileUpload file_path parent s =
  match MediaFileUpload file_path with
  | Ok media =>
      match execute s (file_request file_path media parent) with
      | (s', Ok file) => (s', [], Ok (dict_get file "id"))
      | (s', Raise e) =>
          (s', [Print ("Error uploading file '" ++ path_str file_path ++ "': " ++ exn_msg e)%string],
           Ok None)
      end
  | Raise e =>
      (s, [Print ("Error uploading file '" ++ path_str file_path ++ "': " ++ exn_msg e)%string],
       Ok None)
  end.
Proof.
  unfold upload_file, try_except, bind, remote, lift, file_request.
  destruct (MediaFileUpload file_path) as [media|e]; [|reflexivity].
  destruct (execute s _) as [s' [file|e]]; reflexivity.
Qed.

(** Either adapter returns, having printed at most lines, and nothing
    at all when it returns an id. *)
Lemma create_folder_returns folder_name parent s :
  exists s' out v,
    create_folder execute folder_name parent s = (s', out, Ok v) /\
    all_prints out /\ (v <> None -> out = []).
Proof.
  rewrite create_folder_run.
  destruct (execute s _) as [s' [folder|e]].
  - exists s', [], (dict_get folder "id"). repeat split; constructor.
  - eexists s', _, None. repeat split; [|congruence].
    repeat constructor.
Qed.

Lemma upload_file_returns file_path parent s :
  exists s' out v,
    upload_file execute MediaFileUpload file_path parent s = (s', out, Ok v) /\
    all_prints out.
Proof.
  rewrite upload_file_run.
  destruct (MediaFileUpload file_path) as [media|e].
  - destruct (execute s _) as [s' [file|e]].
    + exists s', [], (dict_get file "id"). repeat split; constructor.
    + eexists s', _, None. repeat split. repeat constructor.
  - eexists s, _, None. repeat split. repeat constructor.
Qed.

End Adapters.

(** ** The loops of the driver *)

Lemma bind_ret_l {S A B} (a : A) (f : A -> py S B) s : bind (ret a) f s = f a s.
Proof. unfold bind, ret. destruct (f a s) as [[s2 t2] r]. reflexivity. Qed.

Lemma bind_ext {S A B} (m : py S A) (f g : A -> py S B) s :
  (forall a s', f a s' = g a s') -> bind m f s = bind m g s.
Proof.
  intros H. unfold bind. destruct (m s) as [[s1 t1] [a|e]]; [|reflexivity].
  rewrite H. reflexivity.
Qed.

Lemma last_cons_default {A} (a d : A) l : last (a :: l) d = last l a.
Proof.
  revert a d. induction l as [|b l IH]; intros a d; [reflexivity|].
  change (last (a :: b :: l) d) with (last (b :: l) d).
  rewrite (IH b d), (IH b a). reflexivity.
Qed.

Lemma resolved_cons cur i ids : resolved cur (i :: ids) = resolved (Some i) ids.
Proof. unfold resolved. simpl map. apply last_cons_default. Qed.

Section Walk.

Context {service : Type}.
Variable execute : service -> request -> service * result response.
Variable MediaFileUpload : path -> result path.
Variable top : path.
Variable parent : option string.

Lemma traced_create_run folder_name cur s :
  exists s' out v,
    traced (CreateFolder folder_name cur)
      (create_folder execute folder_name cur) s
    = (s', out ++ [CreateFolder folder_name cur v], Ok v) /\
    all_prints out /\ (v <> None -> out = []).
Proof.
  destruct (create_folder_returns execute folder_name cur s)
    as (s' & out & v & Hrun & Hout & Hv).
  exists s', out, v. repeat split; try assumption.
  unfold traced. erewrite bind_run_eq; [reflexivity|exact Hrun|].
  unfold bind, emit, ret. reflexivity.
Qed.

Lemma traced_upload_run file_path cur s :
  exists s' out v,
    traced (UploadFile file_path cur)
      (upload_file execute MediaFileUpload file_path cur) s
    = (s', out ++ [UploadFile file_path cur v], Ok v) /\
    all_prints out.
Proof.
  destruct (upload_file_returns execute MediaFileUpload file_path cur s)
    as (s' & out & v & Hrun & Hout).
  exists s', out, v. split; [|assumption].
  unfold traced. erewrite bind_run_eq; [reflexivity|exact Hrun|].
  unfold bind, emit, ret. reflexivity.
Qed.

Lemma create_folders_outcome names :
  forall cur s, folders_outcome names cur (create_folders execute names cur s).
Proof.
  induction names as [|n names IH]; intros cur s.
  - simpl. unfold ret. apply folders_made with (ids := []); reflexivity.
  - simpl.
    destruct (traced_create_run n cur s) as (s1 & out & v & Hrun & Hout & Hv).
    rewrite (bind_run _ _ _ _ _ _ Hrun). destruct v as [i|].
    + rewrite Hv by discriminate. simpl app.
      specialize (IH (Some i) s1).
      destruct (create_folders execute names (Some i) s1) as [[s2 t2] r].
      inversion IH as [s' ids tr r' Hlen Htr Hr
                      |s' done name rest ids out' tr Hnames Hlen Hout' Htr]; subst.
      * apply folders_made with (ids := i :: ids).
        -- simpl. congruence.
        -- reflexivity.
        -- rewrite resolved_cons. reflexivity.
      * apply folders_failed
          with (done := n :: done) (name := name) (rest := rest)
               (ids := i :: ids) (out := out').
        -- reflexivity.
        -- simpl. congruence.
        -- assumption.
        -- rewrite resolved_cons. reflexivity.
    + unfold bind, print, emit, ret. simpl.
      apply folders_failed
        with (done := []) (name := n) (rest := names) (ids := []) (out := out).
      * reflexivity.
      * reflexivity.
      * assumption.
      * simpl. rewrite <- app_assoc. reflexivity.
Qed.

Lemma upload_files_outcome root cur files :
  forall s, exists s' tr,
    upload_files execute MediaFileUpload root files cur s = (s', tr, Ok tt) /\
    uploads_trace root cur files tr.
Proof.
  induction files as [|f files IH]; intros s.
  - exists s, []. split; [reflexivity|constructor].
  - simpl.
    destruct (traced_upload_run (path_join root f) cur s)
      as (s1 & out & v & Hrun & Hout).
    destruct (IH s1) as (s2 & tr & Hrest & Htr).
    exists s2, ((out ++ [UploadFile (path_join root f) cur v]) ++ tr). split.
    + erewrite bind_run_eq; [reflexivity|exact Hrun|exact Hrest].
    + rewrite <- app_assoc. simpl. constructor; assumption.
Qed.

(** A round of the walk is the folders of the decomposed path, then the
    files. *)
Lemma visit_run root dirs files s :
  visit execute MediaFileUpload top parent (root, dirs, files) s =
  bind (create_folders execute (path_decomposer top root) parent)
    (fun resolved =>
       match resolved with
       | None => ret Returned
       | Some cur =>
           bind (upload_files execute MediaFileUpload root files cur)
             (fun _ => ret Next)
       end) s.
Proof.
  unfold visit, path_decomposer.
  destruct (negb (relpath root top =? ".")); reflexivity.
Qed.

Lemma visit_next_run root dirs files s s1 t1 cur s2 t2 :
  create_folders execute (path_decomposer top root) parent s
  = (s1, t1, Ok (Some cur)) ->
  upload_files execute MediaFileUpload root files cur s1 = (s2, t2, Ok tt) ->
  visit execute MediaFileUpload top parent (root, dirs, files) s
  = (s2, t1 ++ t2, Ok Next).
Proof.
  intros Hf Hup. rewrite visit_run.
  unfold bind, ret. rewrite Hf. cbv beta iota. rewrite Hup.
  rewrite app_nil_r. reflexivity.
Qed.


Lemma walk_loop_cons_next entry rest s s1 t1 s2 t2 r :
  visit execute MediaFileUpload top parent entry s = (s1, t1, Ok Next) ->
  walk_loop execute MediaFileUpload top parent rest s1 = (s2, t2, r) ->
  walk_loop execute MediaFileUpload top parent (entry :: rest) s
  = (s2, t1 ++ t2, r).
Proof.
  intros Hv Hrest. cbn [walk_loop].
  unfold bind. rewrite Hv. cbv beta iota. rewrite Hrest. reflexivity.
Qed.


Lemma walk_loop_app l1 l2 s :
  walk_loop execute MediaFileUpload top parent (l1 ++ l2) s =
  bind (walk_loop execute MediaFileUpload top parent l1)
    (fun c =>
       match c with
       | Returned => ret Returned
       | Next => walk_loop execute MediaFileUpload top parent l2
       end) s.
Proof.
  revert s. induction l1 as [|e l1 IH]; intros s.
  - simpl app. simpl walk_loop. rewrite bind_ret_l. reflexivity.
  - simpl app. simpl walk_loop. rewrite bind_assoc.
    apply bind_ext. intros c s'. destruct c.
    + apply IH.
    + rewrite bind_ret_l. reflexivity.
Qed.

Lemma walk_loop_outcome entries :
  forall s, exists s' tr c,
    walk_loop execute MediaFileUpload top parent entries s = (s', tr, Ok c) /\
    walk_outcome top parent entries tr c.
Proof.
  induction entries as [|[[root dirs] files] rest IH]; intros s.
  - exists s, [], Next. split; [reflexivity|constructor].
  - cbn [walk_loop]. unfold bind at 1. rewrite visit_run.
    pose proof (create_folders_outcome (path_decomposer top root) parent s) as Hf.
    unfold bind at 1.
    destruct (create_folders execute (path_decomposer top root) parent s)
      as [[s1 t1] r1].
    inversion Hf as [s' ids tr r' Hlen Htr Hr
                    |s' done name rest' ids out tr Hnames Hlen Hout Htr]; subst.
    + destruct (upload_files_outcome root (resolved parent ids) files s1)
        as (s2 & ups & Hup & Hups).
      rewrite (bind_run _ _ _ _ _ _ Hup). unfold ret at 1.
      destruct (IH s2) as (s3 & tr & c & Hrest & Hout).
      rewrite Hrest. exists s3. eexists. exists c. split; [reflexivity|].
      rewrite app_nil_r, <- app_assoc. apply walk_step; assumption.
    + unfold ret. exists s1. eexists. exists Returned. split; [reflexivity|].
      rewrite !app_nil_r. eapply walk_abort; eassumption.
Qed.

Lemma upload_directory_run t s s' tr c :
  walk_loop execute MediaFileUpload top parent (os_walk top t) s = (s', tr, Ok c) ->
  upload_directory execute MediaFileUpload top t parent s = (s', tr, Ok tt).
Proof.
  intros H. unfold upload_directory.
  erewrite bind_run_eq; [|exact H|reflexivity].
  rewrite app_nil_r. reflexivity.
Qed.

End Walk.

(** ** The walk of a tree *)

Lemma tree_ind (P : tree -> Prop) :
  (forall dirs files, Forall (fun d => P (snd d)) dirs -> P (Dir dirs files)) ->
  forall t, P t.
Proof.
  intros H. fix IH 1. intros [dirs files]. apply H.
  induction dirs as [|d dirs IHd]; constructor; [apply IH|exact IHd].
Qed.

Lemma os_walk_shift top t :
  forall p, os_walk (top ++ p) t = map (shift top) (os_walk p t).
Proof.
  induction t as [dirs files IH] using tree_ind. intros p. simpl.
  unfold shift at 1. simpl. f_equal.
  induction IH as [|d dirs Hd _ IHdirs]; [reflexivity|].
  simpl. rewrite map_app, <- IHdirs. f_equal.
  unfold path_join. rewrite <- Hd, app_assoc. reflexivity.
Qed.

Lemma os_walk_rel top t : os_walk top t = map (shift top) (rel_walk t).
Proof.
  unfold rel_walk. rewrite <- os_walk_shift, app_nil_r. reflexivity.
Qed.

Lemma wf_tree_dirs dirs files :
  wf_tree (Dir dirs files) = true ->
  Forall (fun d => valid_name (fst d) = true /\ wf_tree (snd d) = true) dirs.
Proof.
  simpl. intros H.
  apply andb_true_iff in H. destruct H as [H Hsub].
  apply andb_true_iff in H. destruct H as [Hnames _].
  rewrite forallb_forall in Hnames, Hsub.
  apply Forall_forall. intros d Hd. split.
  - apply Hnames, in_map, Hd.
  - apply Hsub, Hd.
Qed.

Lemma os_walk_valid t :
  forall p, wf_tree t = true -> valid_path p ->
  Forall (fun e => valid_path (fst (fst e))) (os_walk p t).
Proof.
  induction t as [dirs files IH] using tree_ind. intros p Hwf Hp.
  apply wf_tree_dirs in Hwf. simpl. constructor; [exact Hp|].
  induction IH as [|d dirs Hd _ IHdirs]; [constructor|].
  inversion Hwf as [|? ? [Hname Hsub] Hwf']; subst.
  simpl. apply Forall_app. split; [|apply IHdirs, Hwf'].
  apply Hd; [exact Hsub|].
  unfold path_join, valid_path. apply Forall_app. split; [exact Hp|].
  constructor; [exact Hname|constructor].
Qed.

Lemma rel_walk_valid t :
  wf_tree t = true -> Forall (fun e => valid_path (fst (fst e))) (rel_walk t).
Proof. intros H. apply os_walk_valid; [exact H|constructor]. Qed.

(** ** Runs in which every creation succeeds *)

Lemma chain_calls_calls names : forall cur ids,
  calls (chain_calls names cur ids) = chain_calls names cur ids.
Proof.
  induction names as [|n names IH]; intros cur [|i ids]; try reflexivity.
  simpl chain_calls. unfold calls. simpl. f_equal. apply IH.
Qed.

Lemma chain_calls_count names : forall cur ids,
  List.length ids = List.length names ->
  count_creates (chain_calls names cur ids) = List.length names.
Proof.
  induction names as [|n names IH]; intros cur [|i ids] Hlen;
    try discriminate; [reflexivity|].
  simpl chain_calls. unfold count_creates. simpl. f_equal.
  apply IH. simpl in Hlen. congruence.
Qed.

Lemma uploads_trace_calls root cur files tr :
  uploads_trace root cur files tr -> uploads_of root cur files (calls tr).
Proof.
  induction 1 as [|f files out r tr Hout _ IH]; [constructor|].
  rewrite calls_app, (all_prints_no_calls _ Hout). simpl.
  constructor. exact IH.
Qed.

Lemma uploads_trace_args root cur files tr :
  uploads_trace root cur files tr ->
  upload_args tr = map (fun f => (path_join root f, cur)) files.
Proof.
  induction 1 as [|f files out r tr Hout _ IH]; [reflexivity|].
  rewrite upload_args_app, (all_prints_no_upload _ Hout). simpl.
  f_equal. exact IH.
Qed.

Lemma uploads_trace_no_create root cur files tr :
  uploads_trace root cur files tr -> filter is_create tr = [].
Proof.
  induction 1 as [|f files out r tr Hout _ IH]; [reflexivity|].
  rewrite filter_app, (all_prints_no_create _ Hout). simpl. exact IH.
Qed.

Section Succeeding.

Context {service : Type}.
Variable execute : service -> request -> service * result response.
Variable MediaFileUpload : path -> result path.
Variable top : path.
Variable parent : option string.
Hypothesis Hcreate : creates_succeed execute.

Lemma create_folders_succeed names :
  forall cur s, exists s' ids,
    create_folders execute names cur s
    = (s', chain_calls names cur ids, Ok (Some (resolved cur ids))) /\
    List.length ids = List.length names.
Proof.
  induction names as [|n names IH]; intros cur s.
  - exists s, []. split; reflexivity.
  - destruct (Hcreate s {| name := n; mimeType := Some folder_mime;
                           parents := parents_of cur |})
      as (s1 & d & i & Hexec & Hid).
    destruct (IH (Some i) s1) as (s2 & ids & Hrest & Hlen).
    exists s2, (i :: ids). split; [|simpl; congruence].
    simpl create_folders.
    assert (Hrun : traced (CreateFolder n cur) (create_folder execute n cur) s
                   = (s1, [CreateFolder n cur (Some i)], Ok (Some i))).
    { unfold traced, bind, emit, ret. rewrite create_folder_run.
      unfold folder_request. rewrite Hexec, Hid. reflexivity. }
    erewrite bind_run_eq; [|exact Hrun|exact Hrest].
    rewrite resolved_cons. reflexivity.
Qed.

Lemma walk_loop_mirrored entries :
  Forall (fun e => valid_path (fst (fst e))) entries ->
  forall s, exists s' tr,
    walk_loop execute MediaFileUpload top parent (map (shift top) entries) s
    = (s', tr, Ok Next) /\
    mirrored top parent entries (calls tr).
Proof.
  induction 1 as [|[[segs dirs] files] rest Hsegs _ IH]; intros s.
  - exists s, []. split; [reflexivity|constructor].
  - cbn [fst snd] in Hsegs.
    change (map (shift top) ((segs, dirs, files) :: rest))
      with ((top ++ segs, dirs, files) :: map (shift top) rest).
    destruct (create_folders_succeed segs parent s) as (s1 & ids & Hf & Hlen).
    destruct (upload_files_outcome execute MediaFileUpload (top ++ segs)
                (resolved parent ids) files s1) as (s2 & ups & Hup & Hups).
    destruct (IH s2) as (s3 & tr & Hrest & Hm).
    rewrite <- (path_decomposer_under top _ Hsegs) in Hf at 1.
    pose proof (visit_next_run _ _ _ _ _ dirs _ _ _ _ _ _ _ Hf Hup) as Hv.
    eexists. eexists.
    split; [exact (walk_loop_cons_next _ _ _ _ _ _ _ _ _ _ _ _ Hv Hrest)|].
    rewrite !calls_app, chain_calls_calls, <- app_assoc.
    constructor; [exact Hlen|apply uploads_trace_calls, Hups|exact Hm].
Qed.

Lemma upload_directory_mirrored t s :
  wf_tree t = true ->
  mirrored top parent (rel_walk t)
    (calls (trace_of (upload_directory execute MediaFileUpload top t parent s))).
Proof.
  intros Hwf.
  destruct (walk_loop_mirrored _ (rel_walk_valid t Hwf) s) as (s' & tr & Hrun & Hm).
  rewrite <- os_walk_rel in Hrun.
  rewrite (upload_directory_run _ _ _ _ _ _ _ _ _ Hrun). exact Hm.
Qed.

End Succeeding.

(** ** Counting the creations *)

Lemma count_creates_calls tr : count_creates (calls tr) = count_creates tr.
Proof.
  unfold count_creates, calls.
  induction tr as [|e tr IH]; [reflexivity|].
  destruct e; simpl; rewrite ?IH; reflexivity.
Qed.

Lemma uploads_of_nil_files root cur tr : uploads_of root cur [] tr -> tr = [].
Proof. inversion 1. reflexivity. Qed.

Lemma mirrored_count top parent entries tr :
  mirrored top parent entries tr ->
  Forall (fun e => snd e = []) entries ->
  count_creates tr = list_sum (map (fun e => List.length (fst (fst e))) entries).
Proof.
  induction 1 as [|segs dirs files rest ids ups tr Hlen Hups _ IH]; intros Hnf;
    [reflexivity|].
  inversion Hnf as [|? ? Hfiles Hrest]; subst. simpl in Hfiles. subst files.
  apply uploads_of_nil_files in Hups. subst ups.
  rewrite count_creates_app, (chain_calls_count segs parent ids Hlen). simpl.
  f_equal. apply IH, Hrest.
Qed.

Lemma no_files_walk t : forall p,
  no_files t = true -> Forall (fun e => snd e = []) (os_walk p t).
Proof.
  induction t as [dirs files IH] using tree_ind. intros p Hnf.
  simpl in Hnf. apply andb_true_iff in Hnf. destruct Hnf as [Hfiles Hsub].
  simpl. constructor; [destruct files; [reflexivity|discriminate]|].
  rewrite forallb_forall in Hsub.
  induction IH as [|d dirs Hd _ IHdirs]; [constructor|].
  simpl. apply Forall_app. split.
  - apply Hd, Hsub. left. reflexivity.
  - apply IHdirs. intros x Hx. apply Hsub. right. exact Hx.
Qed.

Lemma list_sum_cons a l : list_sum (a :: l) = a + list_sum l.
Proof. reflexivity. Qed.

Lemma walk_depth_sum t : forall p,
  list_sum (map (fun e => List.length (fst (fst e))) (os_walk p t))
  = depth_sum (List.length p) t.
Proof.
  induction t as [dirs files IH] using tree_ind. intros p.
  cbn [os_walk depth_sum map fst]. rewrite list_sum_cons. f_equal.
  induction IH as [|d dirs Hd _ IHdirs]; [reflexivity|].
  cbn [flat_map map]. rewrite map_app, list_sum_app, list_sum_cons.
  f_equal; [|exact IHdirs].
  etransitivity; [apply Hd|].
  unfold path_join. rewrite length_app, Nat.add_1_r. reflexivity.
Qed.

Lemma depth_le_1_sum t : depth_le 1 t = true -> depth_sum 0 t = count_dirs t.
Proof.
  destruct t as [dirs files]. simpl. intros H.
  rewrite forallb_forall in H.
  induction dirs as [|[n [sub fs]] dirs IH]; [reflexivity|].
  simpl. rewrite IH by (intros x Hx; apply H; right; exact Hx).
  assert (Hsub : sub = []).
  { specialize (H (n, Dir sub fs) (or_introl eq_refl)). simpl in H.
    destruct sub; [reflexivity|discriminate]. }
  subst sub. reflexivity.
Qed.

(** ** Where an upload sits in the trace *)

Lemma app_eq_split {A} (l1 l2 pre post : list A) x :
  l1 ++ l2 = pre ++ x :: post ->
  (exists post1, l1 = pre ++ x :: post1 /\ post = post1 ++ l2) \/
  (exists pre2, pre = l1 ++ pre2 /\ l2 = pre2 ++ x :: post).
Proof.
  revert pre. induction l1 as [|a l1 IH]; intros pre H.
  - right. exists pre. split; [reflexivity|exact H].
  - destruct pre as [|b pre]; simpl in H; injection H as Hab Hrest.
    + subst a. left. exists l1. split; [reflexivity|symmetry; exact Hrest].
    + subst b. destruct (IH pre Hrest) as [(post1 & H1 & H2)|(pre2 & H1 & H2)].
      * left. exists post1. subst. split; reflexivity.
      * right. exists pre2. subst. split; reflexivity.
Qed.

Lemma chain_calls_in names : forall cur ids e,
  In e (chain_calls names cur ids) -> is_create e = true.
Proof.
  induction names as [|n names IH]; intros cur [|i ids] e H; try contradiction.
  destruct H as [H|H]; [subst e; reflexivity|].
  eapply IH, H.
Qed.

Lemma all_prints_in out e : all_prints out -> In e out -> is_print e = true.
Proof.
  unfold all_prints. rewrite Forall_forall. intros H Hin. apply H, Hin.
Qed.

Lemma uploads_trace_in root cur files tr fp c r :
  uploads_trace root cur files tr ->
  In (UploadFile fp c r) tr ->
  exists f, In f files /\ fp = path_join root f /\ c = cur.
Proof.
  induction 1 as [|f files out r' tr Hout _ IH]; intros Hin; [contradiction|].
  apply in_app_or in Hin. destruct Hin as [Hin|[Hin|Hin]].
  - apply (all_prints_in _ _ Hout) in Hin. discriminate.
  - injection Hin as <- <- _. exists f. repeat split. left. reflexivity.
  - destruct (IH Hin) as (f' & Hf' & Hfp & Hc).
    exists f'. repeat split; try assumption. right. exact Hf'.
Qed.

Lemma walk_outcome_upload top parent entries tr c :
  walk_outcome top parent entries tr c ->
  forall pre fp cur r post,
    tr = pre ++ UploadFile fp cur r :: post ->
    exists root dirs files f ids pre1 pre2,
      In (root, dirs, files) entries /\ In f files /\
      fp = path_join root f /\
      List.length ids = List.length (path_decomposer top root) /\
      pre = pre1 ++ chain_calls (path_decomposer top root) parent ids ++ pre2 /\
      cur = resolved parent ids.
Proof.
  induction 1 as [|root dirs files rest ids ups tr c Hlen Hups _ IH
                  |root dirs files rest done name rest' ids out Hnames Hlen Hout];
    intros pre fp cur r post Heq.
  - destruct pre; discriminate.
  - apply app_eq_split in Heq.
    destruct Heq as [(post1 & H1 & _)|(pre2 & Hpre & Heq)].
    { assert (Hin : In (UploadFile fp cur r)
                      (chain_calls (path_decomposer top root) parent ids)).
      { rewrite H1. apply in_elt. }
      apply chain_calls_in in Hin. discriminate. }
    apply app_eq_split in Heq.
    destruct Heq as [(post1 & H1 & _)|(pre3 & Hpre2 & Heq)].
    + assert (Hin : In (UploadFile fp cur r) ups) by (rewrite H1; apply in_elt).
      destruct (uploads_trace_in _ _ _ _ _ _ _ Hups Hin) as (f & Hf & Hfp & Hc).
      exists root, dirs, files, f, ids, [], pre2.
      repeat split; try assumption. left. reflexivity.
    + destruct (IH _ _ _ _ _ Heq)
        as (root' & dirs' & files' & f & ids' & pre1 & pre4
            & Hin & Hf & Hfp & Hlen' & Hpre3 & Hc).
      exists root', dirs', files', f, ids',
        (chain_calls (path_decomposer top root) parent ids ++ ups ++ pre1), pre4.
      repeat split; try assumption; [right; exact Hin|].
      subst pre pre2 pre3. rewrite <- !app_assoc. reflexivity.
  - exfalso.
    assert (Hin : In (UploadFile fp cur r)
                    (chain_calls done parent ids ++ out
                       ++ [CreateFolder name (resolved parent ids) None;
                           Print (failed_line name)])).
    { rewrite Heq. apply in_elt. }
    apply in_app_or in Hin. destruct Hin as [Hin|Hin].
    + apply chain_calls_in in Hin. discriminate.
    + apply in_app_or in Hin. destruct Hin as [Hin|[Hin|[Hin|[]]]];
        try discriminate.
      apply (all_prints_in _ _ Hout) in Hin. discriminate.
Qed.

Lemma chain_calls_not_failed names : forall cur ids e,
  In e (chain_calls names cur ids) -> is_failed_create e = false.
Proof.
  induction names as [|n names IH]; intros cur [|i ids] e H; try contradiction.
  destruct H as [H|H]; [subst e; reflexivity|].
  eapply IH, H.
Qed.

Lemma all_prints_not_failed out e :
  all_prints out -> In e out -> is_failed_create e = false.
Proof.
  intros Hout Hin. apply (all_prints_in _ _ Hout) in Hin.
  destruct e; try discriminate. reflexivity.
Qed.

Lemma uploads_trace_not_failed root cur files tr e :
  uploads_trace root cur files tr -> In e tr -> is_failed_create e = false.
Proof.
  induction 1 as [|f files out r' tr Hout _ IH]; intros Hin; [contradiction|].
  apply in_app_or in Hin. destruct Hin as [Hin|[Hin|Hin]].
  - apply (all_prints_not_failed _ _ Hout Hin).
  - subst e. reflexivity.
  - apply IH, Hin.
Qed.

(** After a creation that returned [None] comes the diagnostic, and the end
    of the trace. *)
Lemma walk_outcome_failed top parent entries tr c :
  walk_outcome top parent entries tr c ->
  forall pre name cur post,
    tr = pre ++ CreateFolder name cur None :: post ->
    post = [Print (failed_line name)] /\ c = Returned.
Proof.
  induction 1 as [|root dirs files rest ids ups tr c Hlen Hups _ IH
                  |root dirs files rest done name rest' ids out Hnames Hlen Hout];
    intros pre n cur post Heq.
  - destruct pre; discriminate.
  - apply app_eq_split in Heq.
    destruct Heq as [(post1 & H1 & _)|(pre2 & Hpre & Heq)].
    { assert (Hin : In (CreateFolder n cur None)
                      (chain_calls (path_decomposer top root) parent ids))
        by (rewrite H1; apply in_elt).
      apply chain_calls_not_failed in Hin. discriminate. }
    apply app_eq_split in Heq.
    destruct Heq as [(post1 & H1 & _)|(pre3 & Hpre2 & Heq)].
    + assert (Hin : In (CreateFolder n cur None) ups)
        by (rewrite H1; apply in_elt).
      apply (uploads_trace_not_failed _ _ _ _ _ Hups) in Hin. discriminate.
    + eapply IH, Heq.
  - split; [|reflexivity].
    apply app_eq_split in Heq.
    destruct Heq as [(post1 & H1 & _)|(pre2 & Hpre & Heq)].
    { assert (Hin : In (CreateFolder n cur None) (chain_calls done parent ids))
        by (rewrite H1; apply in_elt).
      apply chain_calls_not_failed in Hin. discriminate. }
    apply app_eq_split in Heq.
    destruct Heq as [(post1 & H1 & _)|(pre3 & Hpre2 & Heq)].
    + assert (Hin : In (CreateFolder n cur None) out)
        by (rewrite H1; apply in_elt).
      apply (all_prints_not_failed _ _ Hout) in Hin. discriminate.
    + destruct pre3 as [|b pre3]; simpl in Heq.
      * injection Heq as <- _ <-. reflexivity.
      * injection Heq as _ Heq. destruct pre3 as [|b' pre3]; simpl in Heq;
          [discriminate|].
        injection Heq as _ Heq. destruct pre3; discriminate.
Qed.

(** ** Directories are walked before what lies below them *)







(** ** The whole run *)

Section Run.

Context {service : Type}.
Variable execute : service -> request -> service * result response.
Variable MediaFileUpload : path -> result path.
Variable top : path.
Variable parent : option string.

Lemma upload_directory_outcome t s :
  exists s' tr c,
    walk_loop execute MediaFileUpload top parent (os_walk top t) s
    = (s', tr, Ok c) /\
    upload_directory execute MediaFileUpload top t parent s = (s', tr, Ok tt) /\
    walk_outcome top parent (os_walk top t) tr c.
Proof.
  destruct (walk_loop_outcome execute MediaFileUpload top parent (os_walk top t) s)
    as (s' & tr & c & Hrun & Hout).
  exists s', tr, c. repeat split; try assumption.
  eapply upload_directory_run, Hrun.
Qed.

Lemma upload_directory_trace t s :
  trace_of (upload_directory execute MediaFileUpload top t parent s)
  = trace_of (walk_loop execute MediaFileUpload top parent (os_walk top t) s).
Proof.
  destruct (upload_directory_outcome t s) as (s' & tr & c & Hw & Hu & _).
  rewrite Hw, Hu. reflexivity.
Qed.

Lemma walk_loop_after l1 l2 s s1 tr1 :
  walk_loop execute MediaFileUpload top parent l1 s = (s1, tr1, Ok Next) ->
  walk_loop execute MediaFileUpload top parent (l1 ++ l2) s
  = (state_of (walk_loop execute MediaFileUpload top parent l2 s1),
     tr1 ++ trace_of (walk_loop execute MediaFileUpload top parent l2 s1),
     value_of (walk_loop execute MediaFileUpload top parent l2 s1)).
Proof.
  intros H. rewrite walk_loop_app. unfold bind. rewrite H.
  destruct (walk_loop execute MediaFileUpload top parent l2 s1) as [[s2 t2] r].
  reflexivity.
Qed.



End Run.

Lemma depth_sum_ge t : forall d, d + count_dirs t <= depth_sum d t.
Proof.
  induction t as [dirs files IH] using tree_ind. intros d. simpl.
  apply Nat.add_le_mono_l.
  induction IH as [|x dirs Hx _ IHdirs]; [apply le_n|].
  simpl. specialize (Hx (S d)). lia.
Qed.

Lemma test_execute_succeeds : creates_succeed (TestDrive.execute []).
Proof.
  intros s body. exists (S s), [("id", TestDrive.fresh_id s)], (TestDrive.fresh_id s).
  split; reflexivity.
Qed.

Lemma test_all_succeed : all_succeed (TestDrive.execute []) TestDrive.media.
Proof.
  split.
  - intros s [body media].
    exists (S s), [("id", TestDrive.fresh_id s)], (TestDrive.fresh_id s).
    split; reflexivity.
  - intros p. exists p. reflexivity.
Qed.

(** * The claims *)

(** ** C1: the remote structure *)

(** C1, as amended. For every well-formed local tree, when every folder
    creation succeeds, the adapter calls of a run are, directory by
    directory in the order of the walk: the creation of one folder per
    component of the directory's relative path, the first under the
    caller's top parent and each next one under the folder just returned
    (so the folders of the ancestors are created afresh for every
    directory below them), then one upload per file of the directory into
    the folder this chain ends in, the top parent itself for the root. *)
Theorem mirror_recreates_chains {service : Type}
    (execute : service -> request -> service * result response)
    (MediaFileUpload : path -> result path)
    (top : path) (parent : option string) (t : tree) (s : service) :
  wf_tree t = true ->
  creates_succeed execute ->
  mirrored top parent (rel_walk t)
    (calls (trace_of (upload_directory execute MediaFileUpload top t parent s))).
Proof.
  intros Hwf Hcreate. apply upload_directory_mirrored; assumption.
Qed.

Lemma mirror_recreates_chains_witness :
  wf_tree TestDrive.tree_nested = true /\
  mirrored TestDrive.top (Some "P") (rel_walk TestDrive.tree_nested)
    (calls (TestDrive.run [] TestDrive.top TestDrive.tree_nested (Some "P"))).
Proof.
  split; [reflexivity|].
  apply (mirror_recreates_chains (TestDrive.execute []) TestDrive.media);
    [reflexivity|exact test_execute_succeeds].
Defined.

(** C1 as stated fails on [root/a/b/f.txt] with [g.txt] in [a]: the run
    creates three folders for two directories, [a] twice, and [b] lies
    under the second [a] while [g.txt] went to the first. *)
Lemma mirror_duplicates_ancestors :
  wf_tree TestDrive.tree_nested = true /\
  all_succeed (TestDrive.execute []) TestDrive.media /\
  TestDrive.run [] TestDrive.top TestDrive.tree_nested (Some "P")
  = [CreateFolder "a" (Some "P") (Some "F1");
     UploadFile ["home"; "photos"; "a"; "g.txt"] (Some "F1") (Some "F2");
     CreateFolder "a" (Some "P") (Some "F3");
     CreateFolder "b" (Some "F3") (Some "F4");
     UploadFile ["home"; "photos"; "a"; "b"; "f.txt"] (Some "F4") (Some "F5")] /\
  ~ one_folder_per_directory TestDrive.top (Some "P") TestDrive.tree_nested
      (TestDrive.run [] TestDrive.top TestDrive.tree_nested (Some "P")).
Proof.
  split; [reflexivity|]. split; [exact test_all_succeed|].
  split; [reflexivity|].
  intros (folder_of & _ & Hperm & _).
  apply Permutation_length in Hperm. vm_compute in Hperm. discriminate.
Qed.

(** ** C3: how many folders are created *)

(** C3, as amended. For every well-formed tree of empty directories in
    which every folder creation succeeds, the number of [create_folder]
    calls is the sum of the depths of the directories below the root (a
    directory at depth d costs d calls); this is never less than the number
    of those directories, and equals it when none lies deeper than one
    level. *)
Theorem create_calls_sum_of_depths {service : Type}
    (execute : service -> request -> service * result response)
    (MediaFileUpload : path -> result path)
    (top : path) (parent : option string) (t : tree) (s : service) :
  wf_tree t = true ->
  no_files t = true ->
  creates_succeed execute ->
  let n := count_creates
             (trace_of (upload_directory execute MediaFileUpload top t parent s)) in
  n = depth_sum 0 t /\
  count_dirs t <= n /\
  (depth_le 1 t = true -> n = count_dirs t).
Proof.
  intros Hwf Hnf Hcreate n.
  assert (Hn : n = depth_sum 0 t).
  { unfold n. rewrite <- count_creates_calls.
    rewrite (mirrored_count top parent (rel_walk t) _
               (upload_directory_mirrored execute MediaFileUpload top parent
                  Hcreate t s Hwf)
               (no_files_walk t [] Hnf)).
    apply (walk_depth_sum t []). }
  split; [exact Hn|]. split.
  - rewrite Hn. apply (depth_sum_ge t 0).
  - intros Hd. rewrite Hn. apply depth_le_1_sum, Hd.
Qed.

Lemma create_calls_sum_of_depths_witness :
  wf_tree TestDrive.tree_empty_dirs = true /\
  no_files TestDrive.tree_empty_dirs = true /\
  count_creates
    (TestDrive.run [] TestDrive.top TestDrive.tree_empty_dirs (Some "P"))
  = depth_sum 0 TestDrive.tree_empty_dirs.
Proof.
  split; [reflexivity|]. split; [reflexivity|].
  apply (create_calls_sum_of_depths (TestDrive.execute []) TestDrive.media
           TestDrive.top (Some "P") TestDrive.tree_empty_dirs 0);
    [reflexivity|reflexivity|exact test_execute_succeeds].
Defined.

(** C3 as stated fails on the empty directories [root/a/b]: two
    directories below the root, three creations. *)
Lemma create_calls_exceed_directories :
  wf_tree TestDrive.tree_empty_dirs = true /\
  no_files TestDrive.tree_empty_dirs = true /\
  creates_succeed (TestDrive.execute []) /\
  count_dirs TestDrive.tree_empty_dirs = 2 /\
  count_creates
    (TestDrive.run [] TestDrive.top TestDrive.tree_empty_dirs (Some "P")) = 3 /\
  count_creates
    (TestDrive.run [] TestDrive.top TestDrive.tree_empty_dirs (Some "P"))
  <> count_dirs TestDrive.tree_empty_dirs.
Proof.
  split; [reflexivity|]. split; [reflexivity|].
  split; [exact test_execute_succeeds|].
  split; [reflexivity|]. split; [reflexivity|].
  vm_compute. discriminate.
Qed.

(** ** C10: what the adapters catch *)

Lemma has_id_get (d : response) (i : string) :
  Escaping.has_id d i -> dict_get d "id" = Some i.
Proof.
  intros (l1 & l2 & -> & Hnot).
  induction l1 as [|[k v] l1 IH]; simpl.
  - reflexivity.
  - destruct (String.eqb_spec k "id") as [->|_].
    + exfalso. apply Hnot. left. reflexivity.
    + apply IH. intros Hin. apply Hnot. right. exact Hin.
Qed.

Section Escapes.

Context {service : Type}.
Variable execute : service -> request -> service * Escaping.outcome response.
Variable MediaFileUpload : string -> Escaping.outcome path.
Variable write : string -> option Escaping.raised.

Lemma escaping_create_folder_run folder_name parent s :
  Escaping.create_folder execute write folder_name parent s =
  match execute s (folder_request folder_name parent) with
  | (s', Escaping.Returned folder) =>
      (s', [], Escaping.Returned (dict_get folder "id"))
  | (s', Escaping.Raised (Escaping.Exc msg)) =>
      match write (Escaping.folder_line folder_name msg) with
      | None =>
          (s', [Print (Escaping.folder_line folder_name msg)],
           Escaping.Returned None)
      | Some x => (s', [], Escaping.Raised x)
      end
  | (s', Escaping.Raised (Escaping.Base name)) =>
      (s', [], Escaping.Raised (Escaping.Base name))
  end.
Proof.
  unfold Escaping.create_folder, Escaping.try_except, Escaping.bind,
    Escaping.remote, Escaping.print, Escaping.ret.
  destruct (execute s _) as [s' [folder|[msg|name]]]; simpl; try reflexivity.
  destruct (write _); reflexivity.
Qed.

Lemma escaping_upload_file_run file_path parent s :
  Escaping.upload_file execute MediaFileUpload write file_path parent s =
  match MediaFileUpload file_path with
  | Escaping.Returned media =>
      match execute s (Escaping.file_request_text file_path media parent) with
      | (s', Escaping.Returned file) =>
          (s', [], Escaping.Returned (dict_get file "id"))
      | (s', Escaping.Raised (Escaping.Exc msg)) =>
          match write (Escaping.file_line file_path msg) with
          | None =>
              (s', [Print (Escaping.file_line file_path msg)],
               Escaping.Returned None)
          | Some x => (s', [], Escaping.Raised x)
          end
      | (s', Escaping.Raised (Escaping.Base name)) =>
          (s', [], Escaping.Raised (Escaping.Base name))
      end
  | Escaping.Raised (Escaping.Exc msg) =>
      match write (Escaping.file_line file_path msg) with
      | None =>
          (s, [Print (Escaping.file_line file_path msg)], Escaping.Returned None)
      | Some x => (s, [], Escaping.Raised x)
      end
  | Escaping.Raised (Escaping.Base name) =>
      (s, [], Escaping.Raised (Escaping.Base name))
  end.
Proof.
  unfold Escaping.upload_file, Escaping.try_except, Escaping.bind,
    Escaping.remote, Escaping.print, Escaping.ret, Escaping.lift.
  destruct (MediaFileUpload file_path) as [media|[msg|name]]; simpl.
  - destruct (execute s _) as [s' [file|[msg|name]]]; simpl; try reflexivity.
    destruct (write _); reflexivity.
  - destruct (write _); reflexivity.
  - reflexivity.
Qed.

(** C10, as amended. Each adapter catches every instance of [Exception]
    that the remote call raises (for a file, also the one that opening it
    raises): it then prints its line and returns [None]; when the call
    returns an object with an id, the adapter returns that id and prints
    nothing. An exception passes the adapter in exactly two cases: it is
    not an instance of [Exception], or printing the line of the handler
    raised it. *)
Theorem adapters_catch_exceptions :
  (forall folder_name parent s x,
      Escaping.value_of (Escaping.create_folder execute write folder_name parent s)
      = Escaping.Raised x <->
      (exists s',
          execute s (folder_request folder_name parent) = (s', Escaping.Raised x) /\
          Escaping.caught x = false) \/
      (exists s' msg,
          execute s (folder_request folder_name parent)
          = (s', Escaping.Raised (Escaping.Exc msg)) /\
          write (Escaping.folder_line folder_name msg) = Some x)) /\
  (forall folder_name parent s s' folder i,
      execute s (folder_request folder_name parent) = (s', Escaping.Returned folder) ->
      Escaping.has_id folder i ->
      Escaping.create_folder execute write folder_name parent s
      = (s', [], Escaping.Returned (Some i))) /\
  (forall folder_name parent s s' msg,
      execute s (folder_request folder_name parent)
      = (s', Escaping.Raised (Escaping.Exc msg)) ->
      write (Escaping.folder_line folder_name msg) = None ->
      Escaping.create_folder execute write folder_name parent s
      = (s', [Print (Escaping.folder_line folder_name msg)],
         Escaping.Returned None)) /\
  (forall file_path parent s x,
      Escaping.value_of
        (Escaping.upload_file execute MediaFileUpload write file_path parent s)
      = Escaping.Raised x <->
      (MediaFileUpload file_path = Escaping.Raised x /\ Escaping.caught x = false) \/
      (exists msg,
          MediaFileUpload file_path = Escaping.Raised (Escaping.Exc msg) /\
          write (Escaping.file_line file_path msg) = Some x) \/
      (exists media s',
          MediaFileUpload file_path = Escaping.Returned media /\
          execute s (Escaping.file_request_text file_path media parent)
          = (s', Escaping.Raised x) /\
          Escaping.caught x = false) \/
      (exists media s' msg,
          MediaFileUpload file_path = Escaping.Returned media /\
          execute s (Escaping.file_request_text file_path media parent)
          = (s', Escaping.Raised (Escaping.Exc msg)) /\
          write (Escaping.file_line file_path msg) = Some x)) /\
  (forall file_path parent s s' media file i,
      MediaFileUpload file_path = Escaping.Returned media ->
      execute s (Escaping.file_request_text file_path media parent)
      = (s', Escaping.Returned file) ->
      Escaping.has_id file i ->
      Escaping.upload_file execute MediaFileUpload write file_path parent s
      = (s', [], Escaping.Returned (Some i))) /\
  (forall file_path parent s msg,
      MediaFileUpload file_path = Escaping.Raised (Escaping.Exc msg) ->
      write (Escaping.file_line file_path msg) = None ->
      Escaping.upload_file execute MediaFileUpload write file_path parent s
      = (s, [Print (Escaping.file_line file_path msg)], Escaping.Returned None)) /\
  (forall file_path parent s s' media msg,
      MediaFileUpload file_path = Escaping.Returned media ->
      execute s (Escaping.file_request_text file_path media parent)
      = (s', Escaping.Raised (Escaping.Exc msg)) ->
      write (Escaping.file_line file_path msg) = None ->
      Escaping.upload_file execute MediaFileUpload write file_path parent s
      = (s', [Print (Escaping.file_line file_path msg)], Escaping.Returned None)).
Proof.
  split; [|split; [|split; [|split; [|split; [|split]]]]].
  - intros folder_name parent s x. rewrite escaping_create_folder_run. split.
    + (* it raises only in the two cases *)
      intros H.
      destruct (execute s (folder_request folder_name parent))
        as [s' [folder|[msg|name]]]; simpl in H.
      * discriminate.
      * destruct (write (Escaping.folder_line folder_name msg)) as [y|] eqn:Hw;
          simpl in H; [|discriminate].
        injection H as ->. right. exists s', msg. split; [reflexivity|exact Hw].
      * injection H as <-. left. exists s'. split; reflexivity.
    + (* and in both it does *)
      intros [(s' & Hexec & Hc)|(s' & msg & Hexec & Hw)]; rewrite Hexec.
      * destruct x as [msg|name]; [discriminate|reflexivity].
      * rewrite Hw. reflexivity.
  - intros folder_name parent s s' folder i Hexec Hid.
    rewrite escaping_create_folder_run, Hexec, (has_id_get _ _ Hid). reflexivity.
  - intros folder_name parent s s' msg Hexec Hw.
    rewrite escaping_create_folder_run, Hexec, Hw. reflexivity.
  - intros file_path parent s x. rewrite escaping_upload_file_run. split.
    + intros H.
      destruct (MediaFileUpload file_path) as [media|[msg|name]] eqn:Hm.
      * destruct (execute s (Escaping.file_request_text file_path media parent))
          as [s' [file|[msg|name]]] eqn:Hexec; simpl in H.
        -- discriminate.
        -- destruct (write (Escaping.file_line file_path msg)) as [y|] eqn:Hw;
             simpl in H; [|discriminate].
           injection H as ->. right. right. right. exists media, s', msg.
           repeat split; assumption.
        -- injection H as <-. right. right. left. exists media, s'.
           repeat split. exact Hexec.
      * destruct (write (Escaping.file_line file_path msg)) as [y|] eqn:Hw;
          simpl in H; [|discriminate].
        injection H as ->. right. left. exists msg. split; [reflexivity|exact Hw].
      * injection H as <-. left. split; reflexivity.
    + intros [(Hm & Hc)|[(msg & Hm & Hw)|[(media & s' & Hm & Hexec & Hc)
                                          |(media & s' & msg & Hm & Hexec & Hw)]]];
        rewrite Hm.
      * destruct x as [msg|name]; [discriminate|reflexivity].
      * rewrite Hw. reflexivity.
      * rewrite Hexec. destruct x as [msg|name]; [discriminate|reflexivity].
      * rewrite Hexec, Hw. reflexivity.
  - intros file_path parent s s' media file i Hm Hexec Hid.
    rewrite escaping_upload_file_run, Hm, Hexec, (has_id_get _ _ Hid). reflexivity.
  - intros file_path parent s msg Hm Hw.
    rewrite escaping_upload_file_run, Hm, Hw. reflexivity.
  - intros file_path parent s s' media msg Hm Hexec Hw.
    rewrite escaping_upload_file_run, Hm, Hexec, Hw. reflexivity.
Qed.

End Escapes.

(** When every line can be printed and the store raises instances of
    [Exception] only, [create_folder] is the adapter of the driver's
    model. *)
Lemma escaping_create_folder_agrees {service : Type}
    (plain : service -> request -> service * result response)
    (write : string -> option Escaping.raised) folder_name parent s :
  (forall line, write line = None) ->
  Escaping.create_folder (Escaping.of_execute plain) write folder_name parent s =
  (let '(s', tr, r) := create_folder plain folder_name parent s in
   (s', tr, Escaping.of_result r)).
Proof.
  intros Hwrite.
  rewrite escaping_create_folder_run, create_folder_run.
  unfold Escaping.of_execute.
  destruct (plain s (folder_request folder_name parent)) as [s' [folder|[msg]]];
    simpl; [reflexivity|].
  rewrite Hwrite. reflexivity.
Qed.

Lemma adapters_catch_exceptions_witness :
  Escaping.create_folder Escaping.accepting Escaping.quiet "sub" (Some "P") 0
  = (1, [], Escaping.Returned (Some "F1")) /\
  Escaping.create_folder Escaping.refusing Escaping.quiet "sub" (Some "P") 0
  = (0, [Print "Error creating folder 'sub': HttpError 403"],
     Escaping.Returned None) /\
  Escaping.upload_file Escaping.refusing Escaping.opened Escaping.quiet
    "photos/a.jpg" (Some "P") 0
  = (0, [Print "Error uploading file 'photos/a.jpg': HttpError 403"],
     Escaping.Returned None).
Proof.
  destruct (adapters_catch_exceptions Escaping.accepting Escaping.opened
              Escaping.quiet) as (_ & Hid & _).
  destruct (adapters_catch_exceptions Escaping.refusing Escaping.opened
              Escaping.quiet) as (_ & _ & Hfolder & _ & _ & _ & Hfile).
  split; [|split].
  - apply (Hid "sub" (Some "P") 0 1 [("kind", "drive#file"); ("id", "F1")] "F1").
    + reflexivity.
    + exists [("kind", "drive#file")], []. split; [reflexivity|].
      intros [H|[]]. discriminate H.
  - apply (Hfolder "sub" (Some "P") 0 0 "HttpError 403"); reflexivity.
  - apply (Hfile "photos/a.jpg" (Some "P") 0 0 ["photos/a.jpg"] "HttpError 403");
      reflexivity.
Defined.

(** C10 as stated fails in two ways: on a store interrupted from the
    keyboard both adapters raise [KeyboardInterrupt], which
    [except Exception] does not catch; and when the store refuses the
    folder and the line of the handler cannot be printed, [create_folder]
    raises what [print] raised instead of returning [None]. *)
Lemma adapters_let_exceptions_through :
  Escaping.value_of
    (Escaping.create_folder Escaping.interrupted Escaping.quiet "sub" (Some "P") 0)
  = Escaping.Raised (Escaping.Base "KeyboardInterrupt") /\
  Escaping.value_of
    (Escaping.upload_file Escaping.interrupted Escaping.opened Escaping.quiet
       "photos/a.jpg" (Some "P") 0)
  = Escaping.Raised (Escaping.Base "KeyboardInterrupt") /\
  Escaping.value_of
    (Escaping.create_folder Escaping.refusing Escaping.unencodable "sub"
       (Some "P") 0)
  = Escaping.Raised (Escaping.Exc "UnicodeEncodeError") /\
  ~ (exists v,
        Escaping.value_of
          (Escaping.create_folder Escaping.refusing Escaping.unencodable "sub"
             (Some "P") 0)
        = Escaping.Returned v).
Proof.
  repeat split; try reflexivity.
  intros (v & H). discriminate H.
Qed.

(** ** C6: the root itself *)

(** C6. The round of the walk for the mirror root resolves no folder: its
    relative path decomposes into no component, its files are uploaded
    with the caller's top parent id, and no [create_folder] call is made
    before the walk goes on to the sub-directories. *)
Theorem root_uses_top_parent {service : Type}
    (execute : service -> request -> service * result response)
    (MediaFileUpload : path -> result path)
    (top : path) (parent : option string)
    (dirs : list (string * tree)) (files : list string) (s : service) :
  path_decomposer top top = [] /\
  exists s1 tr1,
    upload_files execute MediaFileUpload top files parent s = (s1, tr1, Ok tt) /\
    uploads_trace top parent files tr1 /\
    filter is_create tr1 = [] /\
    upload_args tr1 = map (fun f => (path_join top f, parent)) files /\
    trace_of (upload_directory execute MediaFileUpload top (Dir dirs files) parent s)
    = tr1 ++ trace_of
               (walk_loop execute MediaFileUpload top parent
                  (flat_map (fun d => os_walk (path_join top (fst d)) (snd d)) dirs)
                  s1).
Proof.
  split; [apply path_decomposer_root|].
  destruct (upload_files_outcome execute MediaFileUpload top parent files s)
    as (s1 & tr1 & Hup & Hups).
  exists s1, tr1. split; [exact Hup|]. split; [exact Hups|].
  split; [eapply uploads_trace_no_create, Hups|].
  split; [eapply uploads_trace_args, Hups|].
  rewrite upload_directory_trace. cbn [os_walk].
  assert (Hf : create_folders execute (path_decomposer top top) parent s
               = (s, [], Ok (Some parent))).
  { rewrite path_decomposer_root. reflexivity. }
  pose proof (visit_next_run _ _ _ _ _ (map fst dirs) _ _ _ _ _ _ _ Hf Hup) as Hv.
  destruct (walk_loop execute MediaFileUpload top parent
              (flat_map (fun d => os_walk (path_join top (fst d)) (snd d)) dirs) s1)
    as [[s2 t2] r] eqn:Hrest.
  rewrite (walk_loop_cons_next _ _ _ _ _ _ _ _ _ _ _ _ Hv Hrest).
  reflexivity.
Qed.

(** ** C2: a folder that cannot be created *)

(** C2, on the tree [root/{d1/y.txt, d2/x.txt}] with a store that refuses
    the folder [d1]: the run prints the diagnostic and ends; [x.txt], a file
    of the sibling [d2], is never uploaded, and [d2] is never created. *)
Theorem failed_folder_aborts_walk :
  wf_tree TestDrive.tree_siblings = true /\
  file_of TestDrive.tree_siblings ["d2"] "x.txt" /\
  TestDrive.run ["d1"] TestDrive.top TestDrive.tree_siblings (Some "P")
  = [Print "Error creating folder 'd1': HttpError 500";
     CreateFolder "d1" (Some "P") None;
     Print "Failed to create folder 'd1'. Skipping..."] /\
  upload_args
    (TestDrive.run ["d1"] TestDrive.top TestDrive.tree_siblings (Some "P")) = [].
Proof.
  split; [reflexivity|]. split.
  - exists [], ["x.txt"]. split; [|left; reflexivity].
    right. right. left. reflexivity.
  - split; reflexivity.
Qed.

(** ** C9: the scenario of the flat tree *)

Lemma all_succeed_creates {service : Type}
    (execute : service -> request -> service * result response)
    (MediaFileUpload : path -> result path) :
  all_succeed execute MediaFileUpload -> creates_succeed execute.
Proof. intros [H _] s body. apply H. Qed.

Lemma upload_files_one_succeeds {service : Type}
    (execute : service -> request -> service * result response)
    (MediaFileUpload : path -> result path) root f cur s :
  all_succeed execute MediaFileUpload ->
  exists s' i,
    upload_files execute MediaFileUpload root [f] cur s
    = (s', [UploadFile (path_join root f) cur (Some i)], Ok tt).
Proof.
  intros [Hexec Hmedia].
  destruct (Hmedia (path_join root f)) as (m & Hm).
  destruct (Hexec s (file_request (path_join root f) m cur))
    as (s' & d & i & Hrun & Hid).
  exists s', i. cbn [upload_files].
  unfold traced, bind, emit, ret. rewrite upload_file_run, Hm, Hrun, Hid.
  reflexivity.
Qed.

(** C9. On the tree [root/{a.txt, sub/b.txt}] with remote parent [P], when
    every remote call succeeds, the run makes exactly three adapter calls
    and prints nothing: the upload of [a.txt] with parent [P], the creation
    of [sub] under [P], returning some id [F1], and the upload of [b.txt]
    with parent [F1]. No other folder is created. *)
Theorem scenario_flat_tree {service : Type}
    (execute : service -> request -> service * result response)
    (MediaFileUpload : path -> result path)
    (top : path) (P : option string) (s : service) :
  all_succeed execute MediaFileUpload ->
  exists F1 i1 i2,
    trace_of (upload_directory execute MediaFileUpload top TestDrive.tree_flat P s)
    = [UploadFile (top ++ ["a.txt"]) P (Some i1);
       CreateFolder "sub" P (Some F1);
       UploadFile (top ++ ["sub"; "b.txt"]) (Some F1) (Some i2)].
Proof.
  intros Hall.
  pose proof (all_succeed_creates _ _ Hall) as Hcreate.
  destruct (upload_files_one_succeeds execute MediaFileUpload top "a.txt" P s Hall)
    as (s1 & i1 & Hup0).
  assert (Hf0 : create_folders execute (path_decomposer top top) P s
                = (s, [], Ok (Some P))).
  { rewrite path_decomposer_root. reflexivity. }
  pose proof (visit_next_run _ _ _ _ _ ["sub"] _ _ _ _ _ _ _ Hf0 Hup0) as Hv0.
  destruct (create_folders_succeed execute Hcreate ["sub"] P s1)
    as (s2 & ids & Hf1 & Hlen).
  destruct ids as [|F1 [|? ?]]; try discriminate.
  rewrite <- (path_decomposer_under top ["sub"]) in Hf1 at 1
    by (repeat constructor).
  destruct (upload_files_one_succeeds execute MediaFileUpload
              (top ++ ["sub"]) "b.txt" (Some F1) s2 Hall) as (s3 & i2 & Hup1).
  pose proof (visit_next_run _ _ _ _ _ [] _ _ _ _ _ _ _ Hf1 Hup1) as Hv1.
  assert (Hnil : walk_loop execute MediaFileUpload top P [] s3 = (s3, [], Ok Next))
    by reflexivity.
  pose proof (walk_loop_cons_next _ _ _ _ _ _ _ _ _ _ _ _ Hv1 Hnil) as Hw1.
  pose proof (walk_loop_cons_next _ _ _ _ _ _ _ _ _ _ _ _ Hv0 Hw1) as Hw0.
  exists F1, i1, i2.
  rewrite upload_directory_trace.
  change (os_walk top TestDrive.tree_flat)
    with [(top, ["sub"], ["a.txt"]); (top ++ ["sub"], [], ["b.txt"])].
  rewrite Hw0. unfold trace_of, path_join. simpl.
  rewrite <- app_assoc. reflexivity.
Qed.

Lemma scenario_flat_tree_witness :
  all_succeed (TestDrive.execute []) TestDrive.media /\
  exists F1 i1 i2,
    TestDrive.run [] TestDrive.top TestDrive.tree_flat (Some "P")
    = [UploadFile (TestDrive.top ++ ["a.txt"]) (Some "P") (Some i1);
       CreateFolder "sub" (Some "P") (Some F1);
       UploadFile (TestDrive.top ++ ["sub"; "b.txt"]) (Some F1) (Some i2)].
Proof.
  split; [exact test_all_succeed|].
  apply (scenario_flat_tree (TestDrive.execute []) TestDrive.media
           TestDrive.top (Some "P") 0 test_all_succeed).
Defined.

(** ** C4: folders before files, ancestors before descendants *)

Lemma chain_calls_create names : forall cur ids pre n c r post,
  chain_calls names cur ids = pre ++ CreateFolder n c r :: post ->
  exists done rest ids1,
    names = done ++ n :: rest /\
    List.length ids1 = List.length done /\
    pre = chain_calls done cur ids1 /\
    c = resolved cur ids1.
Proof.
  induction names as [|n0 names IH]; intros cur ids pre n c r post H.
  - destruct pre; discriminate.
  - destruct ids as [|i ids]; [destruct pre; discriminate|].
    simpl in H. destruct pre as [|e pre]; simpl in H.
    + injection H as Hn Hc _ _. subst n c.
      exists [], names, []. repeat split.
    + injection H as He H. subst e.
      destruct (IH _ _ _ _ _ _ _ H) as (done & rest & ids1 & -> & Hlen & -> & ->).
      exists (n0 :: done), rest, (i :: ids1). repeat split.
      * simpl. congruence.
      * rewrite resolved_cons. reflexivity.
Qed.

Lemma uploads_trace_create_free root cur files tr n c r :
  uploads_trace root cur files tr -> ~ In (CreateFolder n c r) tr.
Proof.
  intros Hups Hin.
  assert (Hf : In (CreateFolder n c r) (filter is_create tr))
    by (apply filter_In; split; [exact Hin|reflexivity]).
  rewrite (uploads_trace_no_create _ _ _ _ Hups) in Hf. contradiction.
Qed.

(** A creation in the trace is that of one component of the relative path
    of a walked directory, right after the successful creations of the
    components before it. *)
Lemma walk_outcome_create top parent entries tr c :
  walk_outcome top parent entries tr c ->
  forall pre n cur r post,
    tr = pre ++ CreateFolder n cur r :: post ->
    exists root dirs files done rest ids pre1 out,
      In (root, dirs, files) entries /\
      path_decomposer top root = done ++ n :: rest /\
      List.length ids = List.length done /\
      pre = pre1 ++ chain_calls done parent ids ++ out /\
      all_prints out /\
      cur = resolved parent ids.
Proof.
  induction 1 as [|root dirs files rest ids ups tr c Hlen Hups _ IH
                  |root dirs files rest done name rest' ids out Hnames Hlen Hout];
    intros pre n cur r post Heq.
  - destruct pre; discriminate.
  - apply app_eq_split in Heq.
    destruct Heq as [(post1 & H1 & _)|(pre2 & Hpre & Heq)].
    { destruct (chain_calls_create _ _ _ _ _ _ _ _ H1)
        as (done & rest0 & ids1 & Hnames & Hlen1 & -> & ->).
      exists root, dirs, files, done, rest0, ids1, [], [].
      repeat split; try assumption.
      - left. reflexivity.
      - rewrite app_nil_r. reflexivity.
      - constructor. }
    apply app_eq_split in Heq.
    destruct Heq as [(post1 & H1 & _)|(pre3 & Hpre2 & Heq)].
    + exfalso. apply (uploads_trace_create_free _ _ _ _ n cur r Hups).
      rewrite H1. apply in_elt.
    + destruct (IH _ _ _ _ _ Heq)
        as (root' & dirs' & files' & done & rest0 & ids1 & pre1 & out
            & Hin & Hnames & Hlen1 & Hpre3 & Hout & Hcur).
      exists root', dirs', files', done, rest0, ids1,
        (chain_calls (path_decomposer top root) parent ids ++ ups ++ pre1), out.
      repeat split; try assumption; [right; exact Hin|].
      subst pre pre2 pre3. rewrite <- !app_assoc. reflexivity.
  - apply app_eq_split in Heq.
    destruct Heq as [(post1 & H1 & _)|(pre2 & Hpre & Heq)].
    { destruct (chain_calls_create _ _ _ _ _ _ _ _ H1)
        as (done1 & rest1 & ids1 & Hdone & Hlen1 & -> & ->).
      exists root, dirs, files, done1, (rest1 ++ name :: rest'), ids1, [], [].
      repeat split; try assumption.
      - left. reflexivity.
      - rewrite Hnames, Hdone, <- app_assoc. reflexivity.
      - rewrite app_nil_r. reflexivity.
      - constructor. }
    apply app_eq_split in Heq.
    destruct Heq as [(post1 & H1 & _)|(pre3 & Hpre2 & Heq)].
    + exfalso.
      assert (Hin : In (CreateFolder n cur r) out) by (rewrite H1; apply in_elt).
      apply (all_prints_in _ _ Hout) in Hin. discriminate.
    + destruct pre3 as [|b pre3]; simpl in Heq.
      * injection Heq as Hn Hc _ _. subst n cur pre pre2.
        exists root, dirs, files, done, rest', ids, [], out.
        repeat split; try assumption.
        -- left. reflexivity.
        -- rewrite app_nil_r. reflexivity.
      * injection Heq as _ Heq. destruct pre3 as [|b' pre3]; simpl in Heq;
          [discriminate|].
        injection Heq as _ Heq. destruct pre3; discriminate.
Qed.

(** C4. In every run on a well-formed tree:
    - an [upload_file] call is the upload of a file [f] of some directory
      of the tree, at the relative path [segs]; before it in the trace
      come, in this order and one after the other, the successful creations
      of the folders of [segs], the first under the top parent and each
      next one under the id just returned, and the upload goes to the last
      of these ids (to the top parent itself for the root, where [segs] is
      empty);
    - a [create_folder] call, whether or not the directory holds a file and
      whatever the call returns, is the creation of one component of the
      relative path of a directory of the tree; right before it (only lines
      printed by this very call in between) come, in order, the successful
      creations of the components above it, the first under the top parent
      and each next one under the id just returned, and it is made under
      the last of these ids. *)
Theorem upload_after_ancestor_folders {service : Type}
    (execute : service -> request -> service * result response)
    (MediaFileUpload : path -> result path)
    (top : path) (parent : option string) (t : tree) (s : service) :
  wf_tree t = true ->
  (forall pre fp cur r post,
      trace_of (upload_directory execute MediaFileUpload top t parent s)
      = pre ++ UploadFile fp cur r :: post ->
      exists segs f ids pre1 pre2,
        file_of t segs f /\
        fp = top ++ segs ++ [f] /\
        List.length ids = List.length segs /\
        pre = pre1 ++ chain_calls segs parent ids ++ pre2 /\
        cur = resolved parent ids) /\
  (forall pre folder_name cur r post,
      trace_of (upload_directory execute MediaFileUpload top t parent s)
      = pre ++ CreateFolder folder_name cur r :: post ->
      exists segs dirs files done rest ids pre1 out,
        In (segs, dirs, files) (rel_walk t) /\
        segs = done ++ folder_name :: rest /\
        List.length ids = List.length done /\
        pre = pre1 ++ chain_calls done parent ids ++ out /\
        all_prints out /\
        cur = resolved parent ids).
Proof.
  intros Hwf.
  destruct (upload_directory_outcome execute MediaFileUpload top parent t s)
    as (s' & tr & c & _ & Hrun & Hout).
  rewrite Hrun. unfold trace_of. simpl.
  pose proof (rel_walk_valid t Hwf) as Hvalid.
  rewrite Forall_forall in Hvalid.
  split.
  - intros pre fp cur r post Heq.
    destruct (walk_outcome_upload _ _ _ _ _ Hout _ _ _ _ _ Heq)
      as (root & dirs & files & f & ids & pre1 & pre2
          & Hin & Hf & Hfp & Hlen & Hpre & Hcur).
    rewrite os_walk_rel in Hin. apply in_map_iff in Hin.
    destruct Hin as ([[segs dirs'] files'] & Hshift & Hin).
    unfold shift in Hshift. simpl in Hshift.
    injection Hshift as <- <- <-.
    specialize (Hvalid _ Hin). simpl in Hvalid.
    rewrite (path_decomposer_under top segs Hvalid) in Hlen, Hpre.
    exists segs, f, ids, pre1, pre2. repeat split; try assumption.
    + exists dirs', files'. split; assumption.
    + subst fp. unfold path_join. rewrite <- app_assoc. reflexivity.
  - intros pre folder_name cur r post Heq.
    destruct (walk_outcome_create _ _ _ _ _ Hout _ _ _ _ _ Heq)
      as (root & dirs & files & done & rest & ids & pre1 & out
          & Hin & Hnames & Hlen & Hpre & Hprints & Hcur).
    rewrite os_walk_rel in Hin. apply in_map_iff in Hin.
    destruct Hin as ([[segs dirs'] files'] & Hshift & Hin).
    unfold shift in Hshift. simpl in Hshift.
    injection Hshift as <- <- <-.
    specialize (Hvalid _ Hin). simpl in Hvalid.
    rewrite (path_decomposer_under top segs Hvalid) in Hnames.
    exists segs, dirs', files', done, rest, ids, pre1, out.
    repeat split; assumption.
Qed.

Lemma upload_after_ancestor_folders_witness :
  wf_tree TestDrive.tree_nested = true /\
  wf_tree TestDrive.tree_empty_dirs = true /\
  (exists segs f ids pre1 pre2,
      file_of TestDrive.tree_nested segs f /\
      ["home"; "photos"; "a"; "b"; "f.txt"] = TestDrive.top ++ segs ++ [f] /\
      List.length ids = List.length segs /\
      [CreateFolder "a" (Some "P") (Some "F1");
       UploadFile ["home"; "photos"; "a"; "g.txt"] (Some "F1") (Some "F2");
       CreateFolder "a" (Some "P") (Some "F3");
       CreateFolder "b" (Some "F3") (Some "F4")]
      = pre1 ++ chain_calls segs (Some "P") ids ++ pre2 /\
      Some "F4" = resolved (Some "P") ids) /\
  (exists segs dirs files done rest ids pre1 out,
      In (segs, dirs, files) (rel_walk TestDrive.tree_empty_dirs) /\
      segs = done ++ "b" :: rest /\
      List.length ids = List.length done /\
      [CreateFolder "a" (Some "P") (Some "F1");
       CreateFolder "a" (Some "P") (Some "F2")]
      = pre1 ++ chain_calls done (Some "P") ids ++ out /\
      all_prints out /\
      Some "F2" = resolved (Some "P") ids).
Proof.
  split; [reflexivity|]. split; [reflexivity|].
  destruct (upload_after_ancestor_folders (TestDrive.execute []) TestDrive.media
              TestDrive.top (Some "P") TestDrive.tree_nested 0 eq_refl)
    as [Hupload _].
  destruct (upload_after_ancestor_folders (TestDrive.execute []) TestDrive.media
              TestDrive.top (Some "P") TestDrive.tree_empty_dirs 0 eq_refl)
    as [_ Hcreate].
  split.
  - apply (Hupload _ _ _ (Some "F5") []). reflexivity.
  - apply (Hcreate _ "b" _ (Some "F3") []). reflexivity.
Defined.

(** ** C5 and C7: one directory of the walk *)



(** C7. Take a directory of the walk, reached by the loop in the state
    [s1] after the trace [tr1], whose folders were all created, ending in
    the folder [cur]. Whatever the uploads return, and so also when some
    return [None], the loop over its files makes one [upload_file] call per
    file, in order, each with parent [cur], and the walk goes on with the
    directories that follow. *)
Theorem upload_failure_does_not_stop {service : Type}
    (execute : service -> request -> service * result response)
    (MediaFileUpload : path -> result path)
    (top : path) (parent : option string) (t : tree) (s : service)
    (before after : list (path * list string * list string))
    (root : path) (dirs files : list string)
    (s1 s2 : service) (tr1 tr2 : list event) (cur : option string) :
  os_walk top t = before ++ (root, dirs, files) :: after ->
  walk_loop execute MediaFileUpload top parent before s = (s1, tr1, Ok Next) ->
  create_folders execute (path_decomposer top root) parent s1
  = (s2, tr2, Ok (Some cur)) ->
  exists s3 tr3,
    upload_files execute MediaFileUpload root files cur s2 = (s3, tr3, Ok tt) /\
    uploads_trace root cur files tr3 /\
    upload_args tr3 = map (fun f => (path_join root f, cur)) files /\
    trace_of (upload_directory execute MediaFileUpload top t parent s)
    = tr1 ++ tr2 ++ tr3
        ++ trace_of (walk_loop execute MediaFileUpload top parent after s3).
Proof.
  intros Hwalk Hbefore Hf.
  destruct (upload_files_outcome execute MediaFileUpload root cur files s2)
    as (s3 & tr3 & Hup & Hups).
  exists s3, tr3. split; [exact Hup|]. split; [exact Hups|].
  split; [eapply uploads_trace_args, Hups|].
  pose proof (visit_next_run _ _ _ _ _ dirs _ _ _ _ _ _ _ Hf Hup) as Hv.
  destruct (walk_loop execute MediaFileUpload top parent after s3)
    as [[s4 t4] r4] eqn:Hrest.
  pose proof (walk_loop_cons_next _ _ _ _ _ _ _ _ _ _ _ _ Hv Hrest) as Hw.
  rewrite upload_directory_trace, Hwalk.
  rewrite (walk_loop_after _ _ _ _ _ _ _ _ _ Hbefore), Hw.
  unfold trace_of. simpl. rewrite <- app_assoc. reflexivity.
Qed.

Lemma upload_failure_does_not_stop_witness :
  exists s3 tr3,
    upload_files (TestDrive.execute ["y.txt"]) TestDrive.media
      (TestDrive.top ++ ["d1"]) ["y.txt"; "z.txt"] (Some "F1") 1
    = (s3, tr3, Ok tt) /\
    uploads_trace (TestDrive.top ++ ["d1"]) (Some "F1") ["y.txt"; "z.txt"] tr3 /\
    upload_args tr3
    = [(["home"; "photos"; "d1"; "y.txt"], Some "F1");
       (["home"; "photos"; "d1"; "z.txt"], Some "F1")] /\
    trace_of
      (upload_directory (TestDrive.execute ["y.txt"]) TestDrive.media
         TestDrive.top
         (Dir [("d1", Dir [] ["y.txt"; "z.txt"]); ("d2", Dir [] ["x.txt"])] [])
         (Some "P") 0)
    = [] ++ [CreateFolder "d1" (Some "P") (Some "F1")] ++ tr3
        ++ trace_of
             (walk_loop (TestDrive.execute ["y.txt"]) TestDrive.media
                TestDrive.top (Some "P")
                [(TestDrive.top ++ ["d2"], [], ["x.txt"])] s3).
Proof.
  apply (upload_failure_does_not_stop
           (TestDrive.execute ["y.txt"]) TestDrive.media TestDrive.top (Some "P")
           (Dir [("d1", Dir [] ["y.txt"; "z.txt"]); ("d2", Dir [] ["x.txt"])] [])
           0
           [(TestDrive.top, ["d1"; "d2"], [])]
           [(TestDrive.top ++ ["d2"], [], ["x.txt"])]
           (TestDrive.top ++ ["d1"]) [] ["y.txt"; "z.txt"]
           0 1 [] [CreateFolder "d1" (Some "P") (Some "F1")] (Some "F1"));
    reflexivity.
Defined.

(** ** C8: the path decomposer *)






















(** * Further properties *)

(** ** The driver *)

Lemma chain_calls_no_upload names : forall cur ids,
  upload_args (chain_calls names cur ids) = [].
Proof.
  induction names as [|n names IH]; intros cur [|i ids]; try reflexivity.
  simpl. apply IH.
Qed.

Lemma uploads_of_args root cur files tr :
  uploads_of root cur files tr ->
  upload_args tr = map (fun f => (path_join root f, cur)) files.
Proof.
  induction 1 as [|f files r tr _ IH]; [reflexivity|].
  simpl. f_equal. exact IH.
Qed.

Lemma uploads_of_no_create root cur files tr :
  uploads_of root cur files tr -> count_creates tr = 0.
Proof.
  induction 1 as [|f files r tr _ IH]; [reflexivity|exact IH].
Qed.

Lemma upload_args_calls tr : upload_args (calls tr) = upload_args tr.
Proof.
  unfold calls. induction tr as [|e tr IH]; [reflexivity|].
  destruct e; simpl; rewrite ?IH; reflexivity.
Qed.

Lemma mirrored_upload_paths top parent entries tr :
  mirrored top parent entries tr ->
  map fst (upload_args tr)
  = flat_map (fun e => map (path_join (top ++ fst (fst e))) (snd e)) entries.
Proof.
  induction 1 as [|segs dirs files rest ids ups tr Hlen Hups _ IH];
    [reflexivity|].
  rewrite !upload_args_app, chain_calls_no_upload, (uploads_of_args _ _ _ _ Hups).
  cbn [app flat_map fst snd]. rewrite map_app, map_map, IH. reflexivity.
Qed.

Lemma mirrored_count_creates top parent entries tr :
  mirrored top parent entries tr ->
  count_creates tr = list_sum (map (fun e => List.length (fst (fst e))) entries).
Proof.
  induction 1 as [|segs dirs files rest ids ups tr Hlen Hups _ IH];
    [reflexivity|].
  rewrite !count_creates_app, (chain_calls_count segs parent ids Hlen),
    (uploads_of_no_create _ _ _ _ Hups), IH.
  reflexivity.
Qed.

(** X2. When every folder creation succeeds, a run on a well-formed tree
    calls [upload_file] once for every file of the tree, in the order of
    the walk, whether or not the uploads themselves succeed. *)
Theorem every_file_uploaded_once {service : Type}
    (execute : service -> request -> service * result response)
    (MediaFileUpload : path -> result path)
    (top : path) (parent : option string) (t : tree) (s : service) :
  wf_tree t = true ->
  creates_succeed execute ->
  map fst
    (upload_args
       (trace_of (upload_directory execute MediaFileUpload top t parent s)))
  = all_file_paths top t.
Proof.
  intros Hwf Hcreate. rewrite <- upload_args_calls.
  apply (mirrored_upload_paths top parent).
  apply upload_directory_mirrored; assumption.
Qed.

Lemma every_file_uploaded_once_witness :
  wf_tree TestDrive.tree_nested = true /\
  map fst
    (upload_args
       (trace_of
          (upload_directory (TestDrive.execute []) unreadable TestDrive.top
             TestDrive.tree_nested (Some "P") 0)))
  = [["home"; "photos"; "a"; "g.txt"]; ["home"; "photos"; "a"; "b"; "f.txt"]].
Proof.
  split; [reflexivity|].
  apply (every_file_uploaded_once (TestDrive.execute []) unreadable
           TestDrive.top (Some "P") TestDrive.tree_nested 0);
    [reflexivity|exact test_execute_succeeds].
Defined.

(** X3. Nothing is reused from one run to the next: when every folder
    creation succeeds, a second run on the same well-formed tree, started
    on the store the first run left, issues as many folder creations as the
    first (the sum of the depths of the directories) and the same uploads
    again. *)
Theorem second_run_duplicates {service : Type}
    (execute : service -> request -> service * result response)
    (MediaFileUpload : path -> result path)
    (top : path) (parent : option string) (t : tree) (s : service) :
  wf_tree t = true ->
  creates_succeed execute ->
  let first := upload_directory execute MediaFileUpload top t parent s in
  let second :=
    upload_directory execute MediaFileUpload top t parent (state_of first) in
  count_creates (trace_of first) = depth_sum 0 t /\
  count_creates (trace_of second) = depth_sum 0 t /\
  map fst (upload_args (trace_of second)) = map fst (upload_args (trace_of first)).
Proof.
  intros Hwf Hcreate first second.
  assert (Hcount : forall s0,
            count_creates
              (trace_of (upload_directory execute MediaFileUpload top t parent s0))
            = depth_sum 0 t).
  { intros s0. rewrite <- count_creates_calls.
    rewrite (mirrored_count_creates top parent (rel_walk t) _
               (upload_directory_mirrored execute MediaFileUpload top parent
                  Hcreate t s0 Hwf)).
    apply (walk_depth_sum t []). }
  assert (Hpaths : forall s0,
            map fst
              (upload_args
                 (trace_of (upload_directory execute MediaFileUpload top t parent s0)))
            = all_file_paths top t).
  { intros s0. rewrite <- upload_args_calls.
    apply (mirrored_upload_paths top parent).
    apply upload_directory_mirrored; assumption. }
  split; [apply Hcount|]. split; [apply Hcount|].
  unfold second, first. rewrite !Hpaths. reflexivity.
Qed.

Lemma second_run_duplicates_witness :
  wf_tree TestDrive.tree_nested = true /\
  count_creates
    (trace_of
       (upload_directory (TestDrive.execute []) TestDrive.media TestDrive.top
          TestDrive.tree_nested (Some "P") 0)) = 3 /\
  count_creates
    (trace_of
       (upload_directory (TestDrive.execute []) TestDrive.media TestDrive.top
          TestDrive.tree_nested (Some "P") 5)) = 3.
Proof.
  split; [reflexivity|].
  destruct (second_run_duplicates (TestDrive.execute []) TestDrive.media
              TestDrive.top (Some "P") TestDrive.tree_nested 0
              eq_refl test_execute_succeeds) as (H1 & H2 & _).
  split; [exact H1|exact H2].
Defined.

(** X4. In any run, a [create_folder] call that returns [None] is the last
    call of the run: after it comes the line that reports it, and nothing
    else, neither a creation nor an upload. *)
Theorem nothing_after_failed_create {service : Type}
    (execute : service -> request -> service * result response)
    (MediaFileUpload : path -> result path)
    (top : path) (parent : option string) (t : tree) (s : service)
    (pre post : list event) (folder_name : string) (cur : option string) :
  trace_of (upload_directory execute MediaFileUpload top t parent s)
  = pre ++ CreateFolder folder_name cur None :: post ->
  post = [Print (failed_line folder_name)].
Proof.
  intros Heq.
  destruct (upload_directory_outcome execute MediaFileUpload top parent t s)
    as (s' & tr & c & _ & Hrun & Hout).
  rewrite Hrun in Heq. unfold trace_of in Heq. simpl in Heq.
  apply (walk_outcome_failed _ _ _ _ _ Hout _ _ _ _ Heq).
Qed.

Lemma nothing_after_failed_create_witness :
  [Print "Failed to create folder 'd2'. Skipping..."]
  = [Print (failed_line "d2")].
Proof.
  apply (nothing_after_failed_create (TestDrive.execute ["d2"]) TestDrive.media
           TestDrive.top (Some "P") TestDrive.tree_siblings 0
           [CreateFolder "d1" (Some "P") (Some "F1");
            UploadFile ["home"; "photos"; "d1"; "y.txt"] (Some "F1") (Some "F2");
            Print "Error creating folder 'd2': HttpError 500"]
           _ "d2" (Some "P")).
  reflexivity.
Defined.

(** ** An empty parent id *)

Section EmptyParent.

Context {service : Type}.
Variable execute : service -> request -> service * result response.
Variable MediaFileUpload : path -> result path.

Lemma create_folder_empty_parent folder_name s :
  create_folder execute folder_name (Some EmptyString) s
  = create_folder execute folder_name None s.
Proof. reflexivity. Qed.

Lemma upload_file_empty_parent file_path s :
  upload_file execute MediaFileUpload file_path (Some EmptyString) s
  = upload_file execute MediaFileUpload file_path None s.
Proof. reflexivity. Qed.

Lemma create_folders_empty_parent n names s :
  same_effect (create_folders execute (n :: names) (Some EmptyString) s)
    (create_folders execute (n :: names) None s).
Proof.
  cbn [create_folders]. unfold traced, bind, emit, ret.
  rewrite create_folder_empty_parent.
  destruct (create_folder execute n None s) as [[s1 t1] [[i|]|e]];
    cbv beta iota; try (split; reflexivity).
  destruct (create_folders execute names (Some i) s1) as [[s2 t2] r].
  split; reflexivity.
Qed.

Lemma upload_files_empty_parent root files : forall s,
  same_effect (upload_files execute MediaFileUpload root files (Some EmptyString) s)
    (upload_files execute MediaFileUpload root files None s).
Proof.
  induction files as [|f files IH]; intros s; [split; reflexivity|].
  cbn [upload_files]. unfold traced, bind, emit, ret.
  rewrite upload_file_empty_parent.
  destruct (upload_file execute MediaFileUpload (path_join root f) None s)
    as [[s1 t1] [v|e]]; cbv beta iota; [|split; reflexivity].
  destruct (IH s1) as [Hs Hv]. unfold state_of, value_of in *.
  destruct (upload_files execute MediaFileUpload root files (Some EmptyString) s1)
    as [[s2 t2] r2].
  destruct (upload_files execute MediaFileUpload root files None s1)
    as [[s3 t3] r3].
  simpl in *. subst. split; reflexivity.
Qed.

Lemma visit_empty_parent top entry s :
  same_effect (visit execute MediaFileUpload top (Some EmptyString) entry s)
    (visit execute MediaFileUpload top None entry s).
Proof.
  destruct entry as [[root dirs] files]. rewrite !visit_run.
  destruct (path_decomposer top root) as [|n names].
  - (* the root: its files go to the parent itself *)
    cbn [create_folders]. rewrite !bind_ret_l.
    pose proof (upload_files_empty_parent root files s) as [Hs Hv].
    unfold bind, state_of, value_of in *.
    destruct (upload_files execute MediaFileUpload root files
                (Some EmptyString) s) as [[s1 t1] r1].
    destruct (upload_files execute MediaFileUpload root files None s)
      as [[s2 t2] r2].
    simpl in Hs, Hv. subst s2 r2. destruct r1; split; reflexivity.
  - (* below the root: the first folder is created without a parent *)
    pose proof (create_folders_empty_parent n names s) as [Hs Hv].
    unfold bind, state_of, value_of in *.
    destruct (create_folders execute (n :: names) (Some EmptyString) s)
      as [[s1 t1] r1].
    destruct (create_folders execute (n :: names) None s) as [[s2 t2] r2].
    simpl in Hs, Hv. subst s2 r2.
    destruct r1 as [[cur|]|e]; try (split; reflexivity).
    destruct (upload_files execute MediaFileUpload root files cur s1)
      as [[s3 t3] [u|e]]; split; reflexivity.
Qed.

Lemma walk_loop_empty_parent top entries : forall s,
  same_effect (walk_loop execute MediaFileUpload top (Some EmptyString) entries s)
    (walk_loop execute MediaFileUpload top None entries s).
Proof.
  induction entries as [|entry rest IH]; intros s; [split; reflexivity|].
  cbn [walk_loop].
  pose proof (visit_empty_parent top entry s) as [Hs Hv].
  unfold bind, state_of, value_of in *.
  destruct (visit execute MediaFileUpload top (Some EmptyString) entry s)
    as [[s1 t1] r1].
  destruct (visit execute MediaFileUpload top None entry s) as [[s2 t2] r2].
  simpl in Hs, Hv. subst s2 r2.
  destruct r1 as [[|]|e]; try (split; reflexivity).
  destruct (IH s1) as [Hs Hv]. unfold state_of, value_of in *.
  destruct (walk_loop execute MediaFileUpload top (Some EmptyString) rest s1)
    as [[s3 t3] r3].
  destruct (walk_loop execute MediaFileUpload top None rest s1) as [[s4 t4] r4].
  simpl in Hs, Hv. subst. split; reflexivity.
Qed.

End EmptyParent.

(** X5. An empty string as parent id counts as no parent at all: both
    adapters behave on it exactly as on [None], and a whole run started
    with the empty id leaves the store in the same state, with the same
    result, as a run started with no parent. *)
Theorem empty_parent_is_no_parent {service : Type}
    (execute : service -> request -> service * result response)
    (MediaFileUpload : path -> result path)
    (top : path) (t : tree) (s : service) :
  (forall folder_name s0,
     create_folder execute folder_name (Some EmptyString) s0
     = create_folder execute folder_name None s0) /\
  (forall file_path s0,
     upload_file execute MediaFileUpload file_path (Some EmptyString) s0
     = upload_file execute MediaFileUpload file_path None s0) /\
  same_effect
    (upload_directory execute MediaFileUpload top t (Some EmptyString) s)
    (upload_directory execute MediaFileUpload top t None s).
Proof.
  split; [intros; apply create_folder_empty_parent|].
  split; [intros; apply upload_file_empty_parent|].
  destruct (upload_directory_outcome execute MediaFileUpload top
              (Some EmptyString) t s) as (s1 & tr1 & c1 & Hw1 & Hu1 & _).
  destruct (upload_directory_outcome execute MediaFileUpload top None t s)
    as (s2 & tr2 & c2 & Hw2 & Hu2 & _).
  pose proof (walk_loop_empty_parent execute MediaFileUpload top (os_walk top t) s)
    as [Hs _].
  rewrite Hw1, Hw2 in Hs. unfold state_of in Hs. simpl in Hs.
  rewrite Hu1, Hu2. split; [exact Hs|reflexivity].
Qed.

(** ** Authentication *)

Section AuthProperties.

Variable handle : Type.
Variable refresh : Auth.credentials -> result Auth.credentials.
Variable run_local_server : string -> result Auth.credentials.
Variable build : Auth.credentials -> result handle.

(** X7. With cached credentials that are valid, authentication neither
    refreshes nor starts the local server flow nor writes the token file:
    it builds the client from the cached credentials. *)
Theorem auth_valid_token_untouched (credentials_file : string)
    (c : Auth.credentials) :
  Auth.valid c = true ->
  Auth.authenticate_google_drive refresh run_local_server build
    credentials_file (Auth.Pickled c)
  = (Auth.Pickled c, [Auth.Build c], build c).
Proof.
  intros Hvalid. unfold Auth.authenticate_google_drive. simpl.
  rewrite Hvalid. reflexivity.
Qed.

(** X8. When the cached credentials are invalid, expired and carry a
    refresh token, and the refresh raises, the exception leaves
    [authenticate_google_drive]: the local server flow is not tried, and
    the token file keeps the credentials that could not be refreshed. *)
Theorem auth_refresh_failure_escapes (credentials_file : string)
    (c : Auth.credentials) (e : exn) :
  Auth.valid c = false ->
  Auth.expired c = true ->
  truthy (Auth.refresh_token c) = true ->
  refresh c = Raise e ->
  Auth.authenticate_google_drive refresh run_local_server build
    credentials_file (Auth.Pickled c)
  = (Auth.Pickled c, [Auth.Refresh c], Raise e).
Proof.
  intros Hvalid Hexpired Htoken Hrefresh.
  unfold Auth.authenticate_google_drive, Auth.obtain, Auth.save_and_build. simpl.
  rewrite Hvalid, Hexpired, Htoken, Hrefresh. reflexivity.
Qed.

(** X9. Whenever authentication returns a client, the token file then
    holds the very credentials the client was built from, and building the
    client was the last library call. *)
Theorem auth_success_saves_token (credentials_file : string)
    (tok tok' : Auth.token_file) (acts : list Auth.action) (h : handle) :
  Auth.authenticate_google_drive refresh run_local_server build
    credentials_file tok = (tok', acts, Ok h) ->
  exists c acts0,
    tok' = Auth.Pickled c /\ build c = Ok h /\ acts = acts0 ++ [Auth.Build c].
Proof.
  unfold Auth.authenticate_google_drive, Auth.save_and_build, Auth.obtain.
  destruct tok as [|c|]; simpl; intros H; [| |discriminate].
  - destruct (run_local_server credentials_file) as [c'|e]; [|discriminate].
    injection H as <- <- Hb.
    exists c', [Auth.RunLocalServer credentials_file; Auth.Dump c'].
    repeat split. exact Hb.
  - destruct (Auth.valid c).
    + injection H as <- <- Hb. exists c, []. repeat split. exact Hb.
    + destruct (Auth.expired c && truthy (Auth.refresh_token c)).
      * destruct (refresh c) as [c'|e]; [|discriminate].
        injection H as <- <- Hb.
        exists c', [Auth.Refresh c; Auth.Dump c']. repeat split. exact Hb.
      * destruct (run_local_server credentials_file) as [c'|e]; [|discriminate].
        injection H as <- <- Hb.
        exists c', [Auth.RunLocalServer credentials_file; Auth.Dump c'].
        repeat split. exact Hb.
Qed.

(** X10. The local server flow is started exactly when there is no token
    file, or when the cached credentials are invalid and are not both
    expired and equipped with a refresh token; a token file that cannot be
    unpickled does not start it. *)
Theorem auth_flow_condition (credentials_file : string) (tok : Auth.token_file) :
  Auth.runs_flow
    (snd (fst (Auth.authenticate_google_drive refresh run_local_server build
                 credentials_file tok)))
  = Auth.needs_flow tok.
Proof.
  unfold Auth.authenticate_google_drive, Auth.save_and_build, Auth.obtain.
  destruct tok as [|c|]; simpl; [| |reflexivity].
  - destruct (run_local_server credentials_file); reflexivity.
  - destruct (Auth.valid c); [reflexivity|].
    destruct (Auth.expired c && truthy (Auth.refresh_token c)); simpl.
    + destruct (refresh c); reflexivity.
    + destruct (run_local_server credentials_file); reflexivity.
Qed.

End AuthProperties.

Lemma auth_valid_token_untouched_witness :
  Auth.authenticate_google_drive Auth.revoked Auth.consent Auth.client
    "credentials.json" (Auth.Pickled Auth.fresh)
  = (Auth.Pickled Auth.fresh, [Auth.Build Auth.fresh], Ok "new").
Proof.
  apply (auth_valid_token_untouched string Auth.revoked Auth.consent Auth.client
           "credentials.json" Auth.fresh).
  reflexivity.
Defined.

Lemma auth_refresh_failure_escapes_witness :
  Auth.authenticate_google_drive Auth.revoked Auth.consent Auth.client
    "credentials.json" (Auth.Pickled Auth.stale)
  = (Auth.Pickled Auth.stale, [Auth.Refresh Auth.stale],
     Raise (Exception "invalid_grant")).
Proof.
  apply (auth_refresh_failure_escapes string Auth.revoked Auth.consent Auth.client
           "credentials.json" Auth.stale (Exception "invalid_grant"));
    reflexivity.
Defined.

Lemma auth_success_saves_token_witness :
  exists c acts0,
    Auth.Pickled Auth.fresh = Auth.Pickled c /\
    Auth.client c = Ok "new" /\
    [Auth.Refresh Auth.stale; Auth.Dump Auth.fresh; Auth.Build Auth.fresh]
    = acts0 ++ [Auth.Build c].
Proof.
  apply (auth_success_saves_token string Auth.renew Auth.consent Auth.client
           "credentials.json" (Auth.Pickled Auth.stale)).
  reflexivity.
Defined.

(** ** copy_files.py: finding a file *)

Lemma existsb_eqb_In n (l : list string) :
  existsb (String.eqb n) l = true <-> In n l.
Proof.
  rewrite existsb_exists. split.
  - intros (x & Hx & Heq). apply String.eqb_eq in Heq. subst x. exact Hx.
  - intros H. exists n. split; [exact H|apply String.eqb_refl].
Qed.

Lemma find_in_walk_some n entries p :
  CopyFiles.find_in_walk n entries = Some p ->
  exists before root dirs files after,
    entries = before ++ (root, dirs, files) :: after /\
    In n files /\ p = path_join root n /\
    (forall r d f, In (r, d, f) before -> ~ In n f).
Proof.
  induction entries as [|[[root dirs] files] rest IH]; simpl; [discriminate|].
  destruct (existsb (String.eqb n) files) eqn:E; intros H.
  - injection H as <-. exists [], root, dirs, files, rest.
    repeat split; [apply existsb_eqb_In, E|]. intros r d f [].
  - destruct (IH H) as (before & root' & dirs' & files' & after
                        & -> & Hin & -> & Hfirst).
    exists ((root, dirs, files) :: before), root', dirs', files', after.
    repeat split; [exact Hin|].
    intros r d f [Heq|Hb].
    + injection Heq as <- <- <-. intros Hn. apply existsb_eqb_In in Hn. congruence.
    + eapply Hfirst, Hb.
Qed.

Lemma find_in_walk_first n before root dirs files after :
  In n files ->
  (forall r d f, In (r, d, f) before -> ~ In n f) ->
  CopyFiles.find_in_walk n (before ++ (root, dirs, files) :: after)
  = Some (path_join root n).
Proof.
  intros Hin. induction before as [|[[r d] f] before IH]; intros Hfirst; simpl.
  - apply existsb_eqb_In in Hin. rewrite Hin. reflexivity.
  - destruct (existsb (String.eqb n) f) eqn:E.
    + apply existsb_eqb_In in E. exfalso. apply (Hfirst r d f); [left; reflexivity|exact E].
    + apply IH. intros r' d' f' Hb. apply (Hfirst r' d' f'). right. exact Hb.
Qed.

Lemma find_in_walk_none n entries :
  CopyFiles.find_in_walk n entries = None <->
  (forall r d f, In (r, d, f) entries -> ~ In n f).
Proof.
  induction entries as [|[[root dirs] files] rest IH]; simpl.
  - split; [intros _ r d f []|reflexivity].
  - destruct (existsb (String.eqb n) files) eqn:E.
    + split; [discriminate|]. intros H. exfalso.
      apply (H root dirs files); [left; reflexivity|apply existsb_eqb_In, E].
    + rewrite IH. split.
      * intros H r d f [Heq|Hr]; [|apply (H r d f Hr)].
        injection Heq as <- <- <-. intros Hn. apply existsb_eqb_In in Hn. congruence.
      * intros H r d f Hr. apply (H r d f). right. exact Hr.
Qed.

(** X11. A path returned by [find_file] is the path of a file of the tree
    that carries the name asked for: the search directory, the relative
    path of one of its directories, and the name. *)
Theorem find_file_sound (file_name : string) (directory : path) (t : tree)
    (p : path) :
  CopyFiles.find_file file_name directory t = Some p ->
  exists segs,
    file_of t segs file_name /\ p = directory ++ segs ++ [file_name].
Proof.
  unfold CopyFiles.find_file. intros H.
  apply find_in_walk_some in H.
  destruct H as (before & root & dirs & files & after & Hwalk & Hin & -> & _).
  assert (Hentry : In (root, dirs, files) (os_walk directory t))
    by (rewrite Hwalk; apply in_elt).
  rewrite os_walk_rel in Hentry. apply in_map_iff in Hentry.
  destruct Hentry as ([[segs dirs'] files'] & Hshift & Hrel).
  unfold shift in Hshift. simpl in Hshift. injection Hshift as <- <- <-.
  exists segs. split.
  - exists dirs', files'. split; assumption.
  - unfold path_join. rewrite <- app_assoc. reflexivity.
Qed.

Lemma find_file_sound_witness :
  exists segs,
    file_of CopyFiles.photos segs "b.jpg" /\
    ["in"; "x"; "b.jpg"] = ["in"] ++ segs ++ ["b.jpg"].
Proof.
  apply (find_file_sound "b.jpg" ["in"] CopyFiles.photos). reflexivity.
Defined.

(** X12. [find_file] returns [None] exactly when no directory of the tree
    holds a file of that name. *)
Theorem find_file_none_iff (file_name : string) (directory : path) (t : tree) :
  CopyFiles.find_file file_name directory t = None <->
  (forall segs, ~ file_of t segs file_name).
Proof.
  unfold CopyFiles.find_file. rewrite find_in_walk_none, os_walk_rel. split.
  - intros H segs (dirs & files & Hrel & Hin).
    apply (H (directory ++ segs) dirs files); [|exact Hin].
    apply in_map_iff. exists (segs, dirs, files). split; [reflexivity|exact Hrel].
  - intros H r d f Hentry Hin. apply in_map_iff in Hentry.
    destruct Hentry as ([[segs dirs'] files'] & Hshift & Hrel).
    unfold shift in Hshift. simpl in Hshift. injection Hshift as <- <- <-.
    apply (H segs). exists dirs', files'. split; assumption.
Qed.

(** X13. Of several files with the same name, [find_file] returns the one
    in the directory that the walk reaches first: a directory that holds
    the name, while no directory walked before it does. *)
Theorem find_file_first (file_name : string) (directory : path) (t : tree)
    (before after : list (path * list string * list string))
    (root : path) (dirs files : list string) :
  os_walk directory t = before ++ (root, dirs, files) :: after ->
  In file_name files ->
  (forall r d f, In (r, d, f) before -> ~ In file_name f) ->
  CopyFiles.find_file file_name directory t = Some (path_join root file_name).
Proof.
  intros Hwalk Hin Hfirst. unfold CopyFiles.find_file. rewrite Hwalk.
  apply find_in_walk_first; assumption.
Qed.

Lemma find_file_first_witness :
  CopyFiles.find_file "a.jpg" ["in"] CopyFiles.photos = Some ["in"; "a.jpg"].
Proof.
  apply (find_file_first "a.jpg" ["in"] CopyFiles.photos
           []
           [(["in"; "x"], [], ["b.jpg"; "a.jpg"]); (["in"; "y"], [], ["c.jpg"])]
           ["in"] ["x"; "y"] ["a.jpg"]).
  - reflexivity.
  - left. reflexivity.
  - intros r d f [].
Defined.

(** ** copy_files.py: copying the listed files *)

Section CopyProperties.

Context {outdir : Type}.
Variable shutil_copy : outdir -> path -> outdir * result unit.

Lemma copy_one_run input_dir t file_name s :
  exists tr,
    CopyFiles.copy_one shutil_copy input_dir t file_name s
    = (CopyFiles.copy_step shutil_copy input_dir t s file_name, tr, Ok tt) /\
    all_prints tr.
Proof.
  unfold CopyFiles.copy_one, CopyFiles.copy_step, CopyFiles.copy,
    try_except, bind, print, emit, ret.
  destruct (CopyFiles.find_file file_name input_dir t) as [p|]; cbv beta iota.
  - destruct (shutil_copy s p) as [s' [[]|e]]; simpl;
      eexists; (split; [reflexivity|repeat constructor]).
  - eexists. split; [reflexivity|repeat constructor].
Qed.

(** X14. As long as the lines are printed and what [shutil.copy] raises is
    an instance of [Exception], [copy_files] goes through the whole list:
    the output directory it leaves is the one obtained by applying, in the
    order of the list, the copy of every listed name that [find_file]
    finds; a name that is not found, or a copy that raises, does not keep
    the later names from being copied. *)
Theorem copy_files_applies_every_copy (file_list : list string)
    (input_dir : path) (t : tree) (s : outdir) :
  state_of (CopyFiles.copy_files shutil_copy file_list input_dir t s)
  = fold_left (CopyFiles.copy_step shutil_copy input_dir t) file_list s.
Proof.
  revert s. induction file_list as [|n rest IH]; intros s; [reflexivity|].
  destruct (copy_one_run input_dir t n s) as (t1 & H1 & _).
  specialize (IH (CopyFiles.copy_step shutil_copy input_dir t s n)).
  cbn [CopyFiles.copy_files fold_left]. unfold bind. rewrite H1.
  destruct (CopyFiles.copy_files shutil_copy rest input_dir t
              (CopyFiles.copy_step shutil_copy input_dir t s n))
    as [[s2 t2] r2].
  exact IH.
Qed.

End CopyProperties.

(** ** copy_files.py: reading the list of names *)










(** ** Under which folder a folder is created *)

Lemma chain_calls_snoc names : forall cur ids,
  names <> [] -> List.length ids = List.length names ->
  exists pre n p i,
    chain_calls names cur ids = pre ++ [CreateFolder n p (Some i)] /\
    resolved cur ids = Some i.
Proof.
  induction names as [|n names IH]; intros cur ids Hne Hlen; [congruence|].
  destruct ids as [|i ids]; [discriminate|].
  destruct names as [|n2 names].
  - destruct ids; [|discriminate]. exists [], n, cur, i. split; reflexivity.
  - destruct (IH (Some i) ids) as (pre & n' & p' & j & Hc & Hr);
      [discriminate|simpl in Hlen |- *; lia|].
    exists (CreateFolder n cur (Some i) :: pre), n', p', j. split.
    + change (chain_calls (n :: n2 :: names) cur (i :: ids))
        with (CreateFolder n cur (Some i) :: chain_calls (n2 :: names) (Some i) ids).
      rewrite Hc. reflexivity.
    + rewrite resolved_cons. exact Hr.
Qed.

Lemma chain_calls_parent names : forall cur ids pre n c r post,
  chain_calls names cur ids = pre ++ CreateFolder n c r :: post ->
  (pre = [] /\ c = cur) \/
  (exists pre' n' p' i, pre = pre' ++ [CreateFolder n' p' (Some i)] /\ c = Some i).
Proof.
  induction names as [|n0 names IH]; intros cur ids pre n c r post H.
  - destruct pre; discriminate.
  - destruct ids as [|i ids]; [destruct pre; discriminate|].
    simpl in H. destruct pre as [|e pre]; simpl in H.
    + injection H as _ Hc _ _. left. split; [reflexivity|symmetry; exact Hc].
    + injection H as He H. subst e. right.
      destruct (IH _ _ _ _ _ _ _ H) as [[-> ->]|(pre' & n' & p' & j & -> & ->)].
      * exists [], n0, cur, i. split; reflexivity.
      * exists (CreateFolder n0 cur (Some i) :: pre'), n', p', j.
        split; reflexivity.
Qed.

Lemma uploads_trace_not_create root cur files tr e :
  uploads_trace root cur files tr -> In e (calls tr) -> is_create e = false.
Proof.
  intros Hups Hin. unfold calls in Hin. apply filter_In in Hin.
  destruct Hin as [Hin _].
  destruct (is_create e) eqn:E; [|reflexivity].
  assert (Hf : In e (filter is_create tr)) by (apply filter_In; split; assumption).
  rewrite (uploads_trace_no_create _ _ _ _ Hups) in Hf. contradiction.
Qed.

Lemma walk_outcome_create_parent top parent entries tr c :
  walk_outcome top parent entries tr c ->
  forall pre n cur r post,
    calls tr = pre ++ CreateFolder n cur r :: post ->
    cur = parent \/
    (exists pre' n' p' i,
        pre = pre' ++ [CreateFolder n' p' (Some i)] /\ cur = Some i).
Proof.
  induction 1 as [|root dirs files rest ids ups tr c Hlen Hups _ IH
                  |root dirs files rest done name rest' ids out Hnames Hlen Hout];
    intros pre n cur r post Heq.
  - destruct pre; discriminate.
  - rewrite !calls_app, chain_calls_calls in Heq.
    apply app_eq_split in Heq.
    destruct Heq as [(post1 & H1 & _)|(pre2 & Hpre & Heq)].
    { destruct (chain_calls_parent _ _ _ _ _ _ _ _ H1) as [[_ ->]|Hprev];
        [left; reflexivity|right; exact Hprev]. }
    apply app_eq_split in Heq.
    destruct Heq as [(post1 & H1 & _)|(pre3 & Hpre2 & Heq)].
    + assert (Hin : In (CreateFolder n cur r) (calls ups))
        by (rewrite H1; apply in_elt).
      apply (uploads_trace_not_create _ _ _ _ _ Hups) in Hin. discriminate.
    + destruct (IH _ _ _ _ _ Heq) as [->|(pre' & n' & p' & i & -> & ->)];
        [left; reflexivity|right].
      exists (chain_calls (path_decomposer top root) parent ids
                ++ calls ups ++ pre'), n', p', i.
      split; [|reflexivity]. subst pre pre2. rewrite <- !app_assoc. reflexivity.
  - rewrite !calls_app, chain_calls_calls, (all_prints_no_calls _ Hout) in Heq.
    change (calls [CreateFolder name (resolved parent ids) None;
                   Print (failed_line name)])
      with [CreateFolder name (resolved parent ids) None] in Heq.
    simpl app in Heq. apply app_eq_split in Heq.
    destruct Heq as [(post1 & H1 & _)|(pre2 & Hpre & Heq)].
    { destruct (chain_calls_parent _ _ _ _ _ _ _ _ H1) as [[_ ->]|Hprev];
        [left; reflexivity|right; exact Hprev]. }
    destruct pre2 as [|e pre2]; simpl in Heq;
      [|injection Heq as _ Heq; destruct pre2; discriminate].
    injection Heq as _ Hcur _ _. rewrite app_nil_r in Hpre. subst pre cur.
    destruct done as [|d done].
    + destruct ids; [|discriminate]. left. reflexivity.
    + right. destruct (chain_calls_snoc (d :: done) parent ids)
        as (pre' & n' & p' & i & Hc & Hr); [discriminate|exact Hlen|].
      exists pre', n', p', i. split; assumption.
Qed.

(** X16. No folder id is kept for later: in the adapter calls of any run,
    a folder is created either under the caller's top parent or under the
    folder whose creation is the call just before it; never under a folder
    created earlier in the run. *)
Theorem folder_parent_is_top_or_previous {service : Type}
    (execute : service -> request -> service * result response)
    (MediaFileUpload : path -> result path)
    (top : path) (parent : option string) (t : tree) (s : service)
    (pre post : list event) (folder_name : string) (cur r : option string) :
  calls (trace_of (upload_directory execute MediaFileUpload top t parent s))
  = pre ++ CreateFolder folder_name cur r :: post ->
  cur = parent \/
  (exists pre' n p i,
      pre = pre' ++ [CreateFolder n p (Some i)] /\ cur = Some i).
Proof.
  intros Heq.
  destruct (upload_directory_outcome execute MediaFileUpload top parent t s)
    as (s' & tr & c & _ & Hrun & Hout).
  rewrite Hrun in Heq. unfold trace_of in Heq. simpl in Heq.
  apply (walk_outcome_create_parent _ _ _ _ _ Hout _ _ _ _ _ Heq).
Qed.

Lemma folder_parent_is_top_or_previous_witness :
  Some "F3" = Some "P" \/
  (exists pre' n p i,
      [CreateFolder "a" (Some "P") (Some "F1");
       UploadFile ["home"; "photos"; "a"; "g.txt"] (Some "F1") (Some "F2");
       CreateFolder "a" (Some "P") (Some "F3")]
      = pre' ++ [CreateFolder n p (Some i)] /\ Some "F3" = Some i).
Proof.
  apply (folder_parent_is_top_or_previous (TestDrive.execute []) TestDrive.media
           TestDrive.top (Some "P") TestDrive.tree_nested 0
           _ [UploadFile ["home"; "photos"; "a"; "b"; "f.txt"] (Some "F4") (Some "F5")]
           "b" (Some "F3") (Some "F4")).
  reflexivity.
Defined.
